(** * genCarrier: Beseler 23C negative-carrier outlines

    A shallow embedding of [genCarrier.py].  The geometry is stated
    with Python floats read as real numbers: those statements are about
    the exact shapes the program approximates.  The angle arithmetic of
    [drawArc] is embedded a second time on IEEE binary64 floats, where
    rounding and the errors of [int()] are visible; statements that
    depend on rounding are made there.  Python exceptions are explicit:
    a call either returns a value or raises.  Formatted output keeps its
    numeric fields symbolic, a document being the sequence of literal
    text and number fields that Python's [%] operator fills in. *)

From Stdlib Require Import Floats.
From Stdlib Require Import Reals Lra Lia ZArith List String Ascii Bool.
From Stdlib Require Import Zfloor.
Import ListNotations.

#[local] Open Scope R_scope.

(** ** Python results *)

Inductive exn : Type :=
| ZeroDivisionError
| ValueError
| OverflowError.

Inductive py (A : Type) : Type :=
| Ok (a : A)
| Raise (e : exn).

Arguments Ok {A} a.
Arguments Raise {A} e.

Definition bind {A B : Type} (c : py A) (k : A -> py B) : py B :=
  match c with
  | Ok a => k a
  | Raise e => Raise e
  end.

Notation "x <- c ;; k" := (bind c (fun x => k))
  (at level 61, c at next level, right associativity).

(** [x / y] on floats, for a divisor the program computes.  Divisions by
    a non-zero literal or module constant cannot raise and are written
    with the plain [/] of the reals. *)
Definition fdiv (x y : R) : py R :=
  if Req_dec_T y 0 then Raise ZeroDivisionError else Ok (x / y).

(** [int(x)]: truncation toward zero. *)
Definition py_int (x : R) : Z :=
  if Rle_dec 0 x then Zfloor x else (- Zfloor (- x))%Z.

(** [math.asin(x)]: a domain error outside [-1, 1]. *)
Definition math_asin (x : R) : py R :=
  if Rle_dec (-1) x then
    if Rle_dec x 1 then Ok (asin x) else Raise ValueError
  else Raise ValueError.

(** [range(lo, n)] for [lo = 0]. *)
Definition range0 (n : Z) : list nat := seq 0 (Z.to_nat n).

(** ** Path data *)

Definition point : Type := (R * R)%type.

(** One pen command of a path's [d] attribute: [" M%f,%f"] or [" L%f,%f"]. *)
Inductive cmd : Type :=
| M (p : point)
| L (p : point).

Definition path : Type := list cmd.

Definition cmd_point (c : cmd) : point :=
  match c with
  | M p => p
  | L p => p
  end.

(** [[center[0]+math.cos(theta)*rad, center[1]+math.sin(theta)*rad]] *)
Definition polar (center : point) (rad theta : R) : point :=
  (fst center + cos theta * rad, snd center + sin theta * rad).

(** ** drawArc *)

(** The first three statements of [drawArc]: the segment count and the
    recomputed angular step. *)
Definition arc_steps (theta0 theta1 : R) : py (Z * R) :=
  let one_degree := (2.0 * PI) / 360.0 in
  let dtheta := one_degree * 0.5 in
  q <- fdiv (Rabs (theta1 - theta0)) dtheta ;;
  let num_segments := (1 + py_int q)%Z in
  dtheta <- fdiv (theta1 - theta0) (IZR num_segments) ;;
  Ok (num_segments, dtheta).

(** One iteration of the loop body, for loop index [i]. *)
Definition arc_body (center : point) (rad theta0 dtheta : R) (moveTo : bool)
    (i : nat) : path :=
  let theta_i := theta0 + INR i * dtheta in
  let theta_i1 := theta_i + dtheta in
  (if Nat.eqb i 0 && moveTo then [M (polar center rad theta_i)] else [])
  ++ [L (polar center rad theta_i1)].

Definition drawArc (center : point) (rad theta0 theta1 : R) (moveTo : bool)
    : py path :=
  nd <- arc_steps theta0 theta1 ;;
  let num_segments := fst nd in
  let dtheta := snd nd in
  Ok (flat_map (arc_body center rad theta0 dtheta moveTo) (range0 num_segments)).

(** ** Module-level constants *)

Definition img_width : R := 8.6.
Definition img_height : R := 6.5.
Definition large_diam : R := 6.375.
Definition large_rad : R := large_diam / 2.0.
Definition handle_width : R := 1.135.
Definition handle_length : R := 8.450 - large_diam.
Definition aligner_gap : R := 0.005.
Definition ring_diam : R := 4.725.
Definition handle_fillet : R := 0.750.
Definition handle_rad : R := 0.150.
Definition x_center : R := img_height / 2.0.
Definition y_center : R := x_center.

(** ** Formatted text *)

(** A formatted string: literal text, [%f] fields and [%.4f] fields. *)
Inductive piece : Type :=
| Lit (s : string)
| Flt (x : R)
| Flt4 (x : R).

Definition text : Type := list piece.

Definition nl : string := String "010"%char EmptyString.
Definition dq : string := String "034"%char EmptyString.
Definition quoted (s : string) : string := (dq ++ s ++ dq)%string.

(** [" M%f,%f" % (x, y)] and [" L%f,%f" % (x, y)] *)
Definition cmd_text (c : cmd) : text :=
  match c with
  | M p => [Lit " M"; Flt (fst p); Lit ","; Flt (snd p)]
  | L p => [Lit " L"; Flt (fst p); Lit ","; Flt (snd p)]
  end.

Definition d_text (d : path) : text := flat_map cmd_text d.

(** The text every path element starts with, up to and including the
    opening quote of its [d] attribute. *)
Definition path_open : string :=
  ("  <path stroke=" ++ quoted "black" ++ " fill=" ++ quoted "none"
   ++ " stroke-width=" ++ quoted ".01" ++ " d=" ++ dq)%string.

Definition makeHeader : text :=
  let s := [Lit ("<!DOCTYPE svg PUBLIC " ++ quoted "-//W3C//DTD SVG 1.1//EN"
                 ++ " " ++ quoted "http://www.w3.org/Graphics/SVG/1.1/DTD/svg11.dtd"
                 ++ ">")%string] in
  s ++ [Lit ("<svg version=" ++ quoted "1.1"
             ++ " xmlns=" ++ quoted "http://www.w3.org/2000/svg"
             ++ " xmlns:xlink=" ++ quoted "http://www.w3.org/1999/xlink"
             ++ " xml:space=" ++ quoted "preserve" ++ " width=" ++ dq)%string;
        Flt img_width; Lit ("in" ++ dq ++ " height=" ++ dq)%string;
        Flt img_height; Lit ("in" ++ dq ++ " viewBox=" ++ dq)%string;
        Flt 0.0; Lit " "; Flt 0.0; Lit " "; Flt img_width; Lit " ";
        Flt img_height; Lit (dq ++ ">")%string].

Definition makeFooter : text := [Lit ("</svg>" ++ nl)%string].

Definition drawRect (p : point) (width height : R) : text :=
  [Lit "M"; Flt (fst p); Lit ","; Flt (snd p);
   Lit " L"; Flt (fst p + width); Lit ","; Flt (snd p);
   Lit " L"; Flt (fst p + width); Lit ","; Flt (snd p + height);
   Lit " L"; Flt (fst p); Lit ","; Flt (snd p + height);
   Lit " L"; Flt (fst p); Lit ","; Flt (snd p)].

(** ** Shapes *)

(** Each shape function first accumulates pen commands in a local
    variable ([outline], [holes], [aligners], [ring]) and then wraps them
    in a path element.  The accumulation is given a name of its own so
    that statements can speak about the geometry before it is printed. *)

(** [handle_theta0] of [makePaddleOutline]. *)
Definition handle_theta0 : py R :=
  math_asin ((handle_width / 2 + handle_fillet) / (large_rad + handle_fillet)).

(** The local [outline] of [makePaddleOutline]. *)
Definition outline : py path :=
  let handle_angle := tan (handle_width / large_diam) in
  handle_theta0 <- handle_theta0 ;;
  let handle_theta1 := PI / 2 - handle_theta0 in
  let fillet_dist := handle_fillet + large_rad in
  let fillet_centerA := (fillet_dist * cos handle_theta0 + x_center,
                         y_center - fillet_dist * sin handle_theta0) in
  let fillet_centerB := (fillet_dist * cos handle_theta0 + x_center,
                         fillet_dist * sin handle_theta0 + y_center) in
  let handle_angle := handle_theta0 in
  outline <- drawArc (x_center, y_center) (large_diam / 2.0)
               handle_angle (2.0 * PI - handle_angle) true ;;
  a <- drawArc fillet_centerA handle_fillet (1.5 + handle_theta1) (0.5 * PI) false ;;
  let outline := outline ++ a in
  let handle_end := handle_length + x_center + large_diam / 2.0 in
  a <- drawArc (handle_end - handle_rad, y_center - 0.5 * handle_width + handle_rad)
         handle_rad (-0.5 * PI) 0.0 false ;;
  let outline := outline ++ a in
  a <- drawArc (handle_end - handle_rad, y_center + 0.5 * handle_width - handle_rad)
         handle_rad 0.0 (0.5 * PI) false ;;
  let outline := outline ++ a in
  a <- drawArc fillet_centerB handle_fillet (1.5 * PI) (1.5 * PI - handle_theta1) false ;;
  let outline := outline ++ a in
  Ok outline.

Definition makePaddleOutline : py text :=
  let s := [Lit ("<!-- Paddle outline -->" ++ nl)%string] in
  outline <- outline ;;
  Ok (s ++ [Lit path_open] ++ d_text outline
        ++ [Lit (" z" ++ dq ++ " />" ++ nl ++ nl)%string]).

(** The local [holes] of [makePaddleSeparatorHoles]. *)
Definition separator_holes : py path :=
  let R := handle_width / 2 * 0.6 in
  holes <- drawArc (x_center + large_rad + handle_length - handle_width / 2, y_center)
             R 0 (2 * PI) true ;;
  a <- drawArc (x_center - large_rad + R * 1.2, y_center) (R * 0.8) 0 (2 * PI) true ;;
  let holes := holes ++ a in
  Ok holes.

Definition makePaddleSeparatorHoles : py text :=
  let s := [Lit ("<!-- Paddle separator holes -->" ++ nl)%string] in
  holes <- separator_holes ;;
  Ok (s ++ [Lit path_open] ++ d_text holes
        ++ [Lit (" z" ++ dq ++ " />" ++ nl ++ nl)%string]).

Definition makeFilmCutout (cut_width cut_height film_width aligner_diam : R) : text :=
  let s := [Lit "<!-- Film cutout "; Flt4 cut_width; Lit "x"; Flt4 cut_height;
            Lit (dq ++ " -->" ++ nl)%string] in
  let cut_x := x_center - cut_height / 2 in
  let cut_y := y_center - cut_width / 2 in
  s ++ [Lit (path_open ++ "M")%string; Flt cut_x; Lit ","; Flt cut_y;
        Lit " l"; Flt cut_height; Lit ",0 l0,"; Flt cut_width;
        Lit " l"; Flt (- cut_height);
        Lit (",0 z" ++ dq ++ " />" ++ nl ++ nl)%string].

(** The local [aligners] of [makeAligners]. *)
Definition aligners (cut_width cut_height film_width aligner_diam scale : R)
    : py path :=
  let cut_x := x_center - cut_height / 2 in
  let cut_y := y_center - cut_width / 2 in
  let aligners : path := [] in
  let aligner_rad := aligner_diam / 2 in
  let p := (x_center - film_width / 2 - aligner_rad,
            y_center - cut_width / 2 + aligner_rad) in
  a <- drawArc p (aligner_rad * scale) 0 (2 * PI) true ;;
  let aligners := aligners ++ a in
  let p := (x_center + film_width / 2 + aligner_rad,
            y_center - cut_width / 2 + aligner_rad) in
  a <- drawArc p (aligner_rad * scale) 0 (2 * PI) true ;;
  let aligners := aligners ++ a in
  let p := (x_center - film_width / 2 - aligner_rad,
            y_center + cut_width / 2 - aligner_rad) in
  a <- drawArc p (aligner_rad * scale) 0 (2 * PI) true ;;
  let aligners := aligners ++ a in
  let p := (x_center + film_width / 2 + aligner_rad,
            y_center + cut_width / 2 - aligner_rad) in
  a <- drawArc p (aligner_rad * scale) 0 (2 * PI) true ;;
  let aligners := aligners ++ a in
  Ok aligners.

Definition makeAligners (cut_width cut_height film_width aligner_diam scale : R)
    : py text :=
  let s := [Lit "<!-- Aligner pins "; Flt4 (aligner_diam * scale);
            Lit (dq ++ " diam -->" ++ nl)%string] in
  aligners <- aligners cut_width cut_height film_width aligner_diam scale ;;
  Ok (s ++ [Lit path_open] ++ d_text aligners
        ++ [Lit (dq ++ " />" ++ nl ++ nl)%string]).

(** The local [ring] of [makeRing]. *)
Definition ring : py path :=
  ring <- drawArc (x_center, y_center) (ring_diam / 2) 0.0 (2 * PI) true ;;
  a <- drawArc (x_center, y_center) (ring_diam / 2 - 0.5) 0.0 (2 * PI) true ;;
  let ring := ring ++ a in
  Ok ring.

Definition makeRing : py text :=
  let s := [Lit "<!-- Ring  OD="; Flt4 ring_diam; Lit (dq ++ ", ID=")%string;
            Flt4 (ring_diam - 1.0); Lit (dq ++ " -->" ++ nl)%string] in
  ring <- ring ;;
  Ok (s ++ [Lit path_open] ++ d_text ring
        ++ [Lit (dq ++ " />" ++ nl ++ nl)%string]).

(** The local [holes] of [makeRingAligners]. *)
Definition ring_holes : py path :=
  let off := ring_diam / 2 - 0.25 in
  holes <- drawArc (x_center, y_center - off) 0.125 0.0 (2 * PI) true ;;
  a <- drawArc (x_center, y_center + off) 0.125 0.0 (2 * PI) true ;;
  let holes := holes ++ a in
  a <- drawArc (x_center - off, y_center) 0.125 0.0 (2 * PI) true ;;
  let holes := holes ++ a in
  a <- drawArc (x_center + off, y_center) 0.125 0.0 (2 * PI) true ;;
  let holes := holes ++ a in
  Ok holes.

Definition makeRingAligners : py text :=
  let s := [Lit ("<!-- Ring alignment holes  -->" ++ nl)%string] in
  holes <- ring_holes ;;
  Ok (s ++ [Lit path_open] ++ d_text holes ++ [Lit (dq ++ " />")%string]).

(** The local [holes] of [makeExtraPins]. *)
Definition pin_holes (pin_diam : R) : py path :=
  let off := (large_rad - 0.625) / sqrt 2.0 in
  holes <- drawArc (x_center - off, y_center - off) (pin_diam / 2) 0.0 (2 * PI) true ;;
  a <- drawArc (x_center - off, y_center + off) (pin_diam / 2) 0.0 (2 * PI) true ;;
  let holes := holes ++ a in
  a <- drawArc (x_center + off, y_center - off) (pin_diam / 2) 0.0 (2 * PI) true ;;
  let holes := holes ++ a in
  a <- drawArc (x_center + off, y_center + off) (pin_diam / 2) 0.0 (2 * PI) true ;;
  let holes := holes ++ a in
  Ok holes.

Definition makeExtraPins (pin_diam : R) : py text :=
  let s := [Lit ("<!-- Extra alignment pins  -->" ++ nl)%string] in
  holes <- pin_holes pin_diam ;;
  Ok (s ++ [Lit path_open] ++ d_text holes ++ [Lit (dq ++ " />")%string]).

(** ** Files and console *)

Record world : Type := mkWorld {
  files : list (string * text);
  stdout : list string
}.

(** [fh = open(name, "w"); fh.write(s)]: the file is created or truncated
    and holds exactly [s]. *)
Definition write_file (name : string) (s : text) (w : world) : world :=
  {| files := (name, s)
              :: filter (fun e => negb (String.eqb (fst e) name)) (files w);
     stdout := stdout w |}.

Definition read_file (name : string) (w : world) : option text :=
  match find (fun e => String.eqb (fst e) name) (files w) with
  | Some e => Some (snd e)
  | None => None
  end.

Definition print (line : string) (w : world) : world :=
  {| files := files w; stdout := stdout w ++ [line] |}.

(** ** Layers *)

Definition genTop (name : string)
    (cut_width cut_height film_width aligner_diam : R) (extra_pins : bool)
    (w : world) : py world :=
  let s := makeHeader in
  o <- makePaddleOutline ;;
  let s := s ++ o in
  let s := s ++ makeFilmCutout cut_width cut_height film_width aligner_diam in
  a <- makeAligners cut_width cut_height film_width aligner_diam 1.0 ;;
  let s := s ++ a in
  s <- (if extra_pins then e <- makeExtraPins 0.750 ;; Ok (s ++ e) else Ok s) ;;
  let s := s ++ makeFooter in
  Ok (write_file name s w).

Definition genBottom (name : string)
    (cut_width cut_height film_width aligner_diam : R) (extra_pins : bool)
    (w : world) : py world :=
  let s := makeHeader in
  o <- makePaddleOutline ;;
  let s := s ++ o in
  h <- makePaddleSeparatorHoles ;;
  let s := s ++ h in
  let s := s ++ makeFilmCutout cut_width cut_height film_width aligner_diam in
  a <- makeAligners cut_width cut_height film_width aligner_diam 0.5 ;;
  let s := s ++ a in
  s <- (if extra_pins then e <- makeExtraPins 0.375 ;; Ok (s ++ e) else Ok s) ;;
  r <- makeRingAligners ;;
  let s := s ++ r in
  let s := s ++ makeFooter in
  let w := print ("    - writing " ++ name)%string w in
  Ok (write_file name s w).

Definition genRing (name : string)
    (cut_width cut_height film_width aligner_diam : R) (extra_pins : bool)
    (w : world) : py world :=
  let s := makeHeader in
  r <- makeRing ;;
  let s := s ++ r in
  r <- makeRingAligners ;;
  let s := s ++ r in
  let s := s ++ makeFooter in
  let w := print ("    - writing " ++ name)%string w in
  Ok (write_file name s w).

Definition genAll (name : string)
    (cut_width cut_height film_width aligner_diam : R) (extra_pins : bool)
    (w : world) : py world :=
  let s := makeHeader in
  o <- makePaddleOutline ;;
  let s := s ++ o in
  h <- makePaddleSeparatorHoles ;;
  let s := s ++ h in
  let s := s ++ makeFilmCutout cut_width cut_height film_width aligner_diam in
  a <- makeAligners cut_width cut_height film_width aligner_diam 1.0 ;;
  let s := s ++ a in
  a <- makeAligners cut_width cut_height film_width aligner_diam 0.5 ;;
  let s := s ++ a in
  s <- (if extra_pins
        then e <- makeExtraPins 0.750 ;;
             let s := s ++ e in
             e <- makeExtraPins 0.375 ;;
             Ok (s ++ e)
        else Ok s) ;;
  r <- makeRing ;;
  let s := s ++ r in
  r <- makeRingAligners ;;
  let s := s ++ r in
  let s := s ++ makeFooter in
  let w := print ("    - writing " ++ name)%string w in
  Ok (write_file name s w).

Definition genCarrier (name : string)
    (cut_width cut_height film_width aligner_diam : R) (extra_pins : bool)
    (w : world) : py world :=
  w <- genTop (name ++ "_top.svg")%string
         cut_width cut_height film_width aligner_diam extra_pins w ;;
  w <- genBottom (name ++ "_bottom.svg")%string
         cut_width cut_height film_width aligner_diam extra_pins w ;;
  w <- genRing (name ++ "_ring.svg")%string
         cut_width cut_height film_width aligner_diam extra_pins w ;;
  genAll (name ++ "_all.svg")%string
    cut_width cut_height film_width aligner_diam extra_pins w.

(** A film format as the main block passes it to [genCarrier]. *)
Record format : Type := mkFormat {
  f_name : string;
  f_cut_width : R;
  f_cut_height : R;
  f_film_width : R;
  f_aligner_diam : R;
  f_extra_pins : bool
}.

Definition fmt_35mm : format :=
  mkFormat "23C_35mm" 1.425 0.945 (1.378 + 0.010) 0.500 true.
Definition fmt_6x7 : format :=
  mkFormat "23C_120_6x7cm" 2.675 2.200 (2.425 + 0.010) 0.750 false.
Definition fmt_6x6 : format :=
  mkFormat "23C_120_6x6cm" 2.200 2.200 (2.425 + 0.010) 0.750 false.

Definition genCarrier_of (f : format) : world -> py world :=
  genCarrier (f_name f) (f_cut_width f) (f_cut_height f) (f_film_width f)
    (f_aligner_diam f) (f_extra_pins f).

Definition main (w : world) : py world :=
  let w := print "Besseler 23C Film Carrier Generator" w in
  let w := print "  - Creating 35mm standard carrier" w in
  w <- genCarrier_of fmt_35mm w ;;
  let w := print "  - Creating 120 film 6x7cm carrier" w in
  w <- genCarrier_of fmt_6x7 w ;;
  let w := print "  - Creating 120 film 6x6cm carrier" w in
  w <- genCarrier_of fmt_6x6 w ;;
  Ok (print "done" w).

(** ** Binary64 arithmetic of the angles

    The statements about exact geometry read floats as reals.  What
    rounding does to the sample angles of [drawArc] is a separate
    question, answered on the floats themselves: the definitions below
    repeat the angle arithmetic of [drawArc] in IEEE binary64, operation
    by operation.  [math.cos] and [math.sin] are not part of it. *)

(** [math.pi]. *)
Definition math_pi : float := 0x1.921fb54442d18p+1%float.

(** [int(x)] on a float: truncation toward zero, an error on an
    infinity or a NaN. *)
Definition int_of_float (x : float) : py Z :=
  match Prim2SF x with
  | S754_zero _ => Ok 0%Z
  | S754_infinity _ => Raise OverflowError
  | S754_nan => Raise ValueError
  | S754_finite s m e =>
      let v := if (0 <=? e)%Z then (Zpos m * 2 ^ e)%Z
               else (Zpos m / 2 ^ (- e))%Z in
      Ok (if s then (- v)%Z else v)
  end.

(** An int used as a float operand: rounded to the nearest float. *)
Definition float_of_int (n : Z) : float :=
  SF2Prim (binary_normalize prec emax n 0 false).

Definition fdiv_float (x y : float) : py float :=
  if PrimFloat.eqb y 0%float then Raise ZeroDivisionError else Ok (x / y)%float.

(** The first three statements of [drawArc], on floats. *)
Definition arc_steps_float (theta0 theta1 : float) : py (Z * float) :=
  let one_degree := ((2.0 * math_pi) / 360.0)%float in
  let dtheta := (one_degree * 0.5)%float in
  q <- fdiv_float (PrimFloat.abs (theta1 - theta0)) dtheta ;;
  i <- int_of_float q ;;
  let num_segments := (1 + i)%Z in
  dtheta <- fdiv_float (theta1 - theta0)%float (float_of_int num_segments) ;;
  Ok (num_segments, dtheta).

(** The angles [theta_i] and [theta_i1] of every iteration of the loop
    of [drawArc], on floats. *)
Definition arc_angles_float (theta0 theta1 : float) : py (list (float * float)) :=
  nd <- arc_steps_float theta0 theta1 ;;
  let num_segments := fst nd in
  let dtheta := snd nd in
  Ok (map (fun i =>
             let theta_i := (theta0 + float_of_int (Z.of_nat i) * dtheta)%float in
             let theta_i1 := (theta_i + dtheta)%float in
             (theta_i, theta_i1))
        (range0 num_segments)).

(** The real number a finite float stands for. *)
Definition float_value (x : float) : R :=
  match Prim2SF x with
  | S754_finite s m e =>
      (if s then -1 else 1) * IZR (Zpos m)
      * (if (0 <=? e)%Z then 2 ^ Z.to_nat e else / 2 ^ Z.to_nat (- e))
  | _ => 0
  end.

(** Factorials in [Z], to evaluate partial sums of the cosine and sine
    series. *)
Fixpoint zfact (n : nat) : Z :=
  match n with
  | O => 1%Z
  | S k => (Z.of_nat (S k) * zfact k)%Z
  end.

(** Rationals around PI / 2: half of [math_pi], and that plus 2^-54 and
    plus 2^-53. *)
Definition half_pi_below : R := 7074237752028440 / 2 ^ 52.

Definition half_pi_mid : R := 28296951008113761 / 2 ^ 54.

Definition half_pi_above : R := 14148475504056881 / 2 ^ 53.

(** ** Vocabulary of the statements *)

(** The first value of [dtheta] in [drawArc]: half a degree. *)
Definition half_degree : R := (2.0 * PI) / 360.0 * 0.5.

(** The value of [num_segments] in [drawArc]. *)
Definition num_segments (theta0 theta1 : R) : Z :=
  (1 + py_int (Rabs (theta1 - theta0) / half_degree))%Z.

(** The second value of [dtheta] in [drawArc]. *)
Definition step (theta0 theta1 : R) : R :=
  (theta1 - theta0) / IZR (num_segments theta0 theta1).

(** The line commands of an arc of [n] segments of angular step [d]:
    what the loop of [drawArc] emits apart from the initial move. *)
Definition arc_lines (center : point) (rad theta0 d : R) (n : nat) : path :=
  map (fun i => L (polar center rad (theta0 + INR i * d + d))) (seq 0 n).

(** The initial move of [drawArc], emitted when [moveTo] is set. *)
Definition arc_move (center : point) (rad theta0 : R) (moveTo : bool) : path :=
  if moveTo then [M (polar center rad theta0)] else [].


(** Arguments of one [drawArc] call that continues or starts a path. *)
Record arc : Type := mkArc {
  a_center : point;
  a_rad : R;
  a_theta0 : R;
  a_theta1 : R
}.

Definition arc_begin (a : arc) : point :=
  polar (a_center a) (a_rad a) (a_theta0 a).

Definition arc_end (a : arc) : point :=
  polar (a_center a) (a_rad a) (a_theta1 a).

Definition draw (moveTo : bool) (a : arc) : py path :=
  drawArc (a_center a) (a_rad a) (a_theta0 a) (a_theta1 a) moveTo.

(** Drawing a list of arcs into one path: the first with the given
    [moveTo], the others as continuations. *)
Fixpoint draw_from (moveTo : bool) (l : list arc) : py path :=
  match l with
  | [] => Ok []
  | a :: l' =>
      d <- draw moveTo a ;;
      ds <- draw_from false l' ;;
      Ok (d ++ ds)
  end.

(** The sine of the angle at which the handle fillet meets the large
    circle: the argument of [math.asin] in [makePaddleOutline]. *)
Definition handle_sine : R :=
  (handle_width / 2 + handle_fillet) / (large_rad + handle_fillet).

(** [fillet_dist] and [handle_end] of [makePaddleOutline]. *)
Definition fillet_dist : R := handle_fillet + large_rad.
Definition handle_end : R := handle_length + x_center + large_diam / 2.0.

(** The five [drawArc] calls of [makePaddleOutline], in program order,
    for a given value [t] of its local [handle_theta0]: the large-circle
    arc, the first fillet, the two corner rounds of the handle tip and
    the mirror fillet. *)
Definition large_arc (t : R) : arc :=
  mkArc (x_center, y_center) (large_diam / 2.0) t (2.0 * PI - t).

Definition fillet_A (t : R) : arc :=
  mkArc (fillet_dist * cos t + x_center, y_center - fillet_dist * sin t)
    handle_fillet (1.5 + (PI / 2 - t)) (0.5 * PI).

Definition corner_top : arc :=
  mkArc (handle_end - handle_rad, y_center - 0.5 * handle_width + handle_rad)
    handle_rad (-0.5 * PI) 0.0.

Definition corner_bottom : arc :=
  mkArc (handle_end - handle_rad, y_center + 0.5 * handle_width - handle_rad)
    handle_rad 0.0 (0.5 * PI).

Definition fillet_B (t : R) : arc :=
  mkArc (fillet_dist * cos t + x_center, fillet_dist * sin t + y_center)
    handle_fillet (1.5 * PI) (1.5 * PI - (PI / 2 - t)).

Definition paddle_arcs (t : R) : list arc :=
  [large_arc t; fillet_A t; corner_top; corner_bottom; fillet_B t].

(** Two points agree up to [tol] in each coordinate. *)
Definition within (tol : R) (p q : point) : Prop :=
  Rabs (fst p - fst q) <= tol /\ Rabs (snd p - snd q) <= tol.

(** Every arc of the list begins where the one before it ended. *)
Definition chained (tol : R) (l : list arc) : Prop :=
  forall i a b,
    nth_error l i = Some a -> nth_error l (S i) = Some b ->
    within tol (arc_begin b) (arc_end a).

Definition is_line (c : cmd) : Prop := exists p, c = L p.

Definition on_circle (center : point) (rad : R) (p : point) : Prop :=
  (fst p - fst center) * (fst p - fst center)
  + (snd p - snd center) * (snd p - snd center) = rad * rad.

(** The closed polyline through [n] equally spaced points of a circle,
    drawn from the point at angle 0 once around and back to it. *)
Definition polygon (center : point) (rad : R) (n : nat) : path :=
  M (polar center rad 0)
  :: map (fun k => L (polar center rad (INR k * (2 * PI / INR n)))) (seq 1 n).

Definition full_circle (center : point) (rad : R) (d : path) : Prop :=
  exists n, (3 <= n)%nat /\ d = polygon center rad n.

(** [res] is the concatenation of one full circle per listed
    (center, radius), in order, and nothing else. *)
Definition circles (spec : list (point * R)) (res : py path) : Prop :=
  exists ks,
    res = Ok (List.concat ks)
    /\ Forall2 (fun cr k => full_circle (fst cr) (snd cr) k) spec ks.

(** Offsets of a pin center from the format center, as magnitudes. *)
Definition pin_offset (dx dy : R) (c : point) : Prop :=
  Rabs (fst c - x_center) = dx /\ Rabs (snd c - y_center) = dy.

Definition aligners_of (f : format) (scale : R) : py path :=
  aligners (f_cut_width f) (f_cut_height f) (f_film_width f)
    (f_aligner_diam f) scale.

(** The path consists of four full circles of radius [r] whose centers
    all lie [dx] beside and [dy] above or below the format center. *)
Definition pins_offset_by (dx dy r : R) (res : py path) : Prop :=
  exists c0 c1 c2 c3,
    circles [(c0, r); (c1, r); (c2, r); (c3, r)] res
    /\ Forall (pin_offset dx dy) [c0; c1; c2; c3].


(** Number of occurrences of [pat] in [s]. *)
Fixpoint count_sub (pat s : string) : nat :=
  match s with
  | EmptyString => 0
  | String _ s' => (if String.prefix pat s then 1 else 0) + count_sub pat s'
  end.

Definition piece_paths (p : piece) : nat :=
  match p with
  | Lit s => count_sub "<path" s
  | _ => O
  end.

(** Number of path elements opened in a document. *)
Definition path_elements (t : text) : nat := list_sum (map piece_paths t).

(** A polyline that ends with a line back to the point it moved to. *)
Definition closed (d : path) : Prop :=
  exists p mid, d = M p :: mid ++ [L p] /\ Forall is_line mid.

Section Render.

(** The two float conversions a document uses. *)
Variable fmt_f : R -> string.
Variable fmt_4f : R -> string.

Definition render_piece (p : piece) : string :=
  match p with
  | Lit s => s
  | Flt x => fmt_f x
  | Flt4 x => fmt_4f x
  end.

Definition render (t : text) : string :=
  String.concat "" (map render_piece t).

End Render.

(** Squared distance of two points. *)
Definition dist2 (p q : point) : R :=
  (fst p - fst q) * (fst p - fst q) + (snd p - snd q) * (snd p - snd q).

(** The points a path visits, in order. *)
Definition points (d : path) : list point := map cmd_point d.

(** A point inside the image bounding box the header declares. *)
Definition in_canvas (p : point) : Prop :=
  0 <= fst p <= img_width /\ 0 <= snd p <= img_height.

(** * Proofs *)

(** ** Python primitives *)

Lemma bind_Ok {A B : Type} (a : A) (k : A -> py B) : bind (Ok a) k = k a.
Proof. reflexivity. Qed.

Lemma Ok_inj {A : Type} (a b : A) : Ok a = Ok b -> a = b.
Proof. intros H. injection H as H. exact H. Qed.

Lemma fdiv_Ok (x y : R) : y <> 0 -> fdiv x y = Ok (x / y).
Proof.
  intros Hy. unfold fdiv.
  destruct (Req_dec_T y 0) as [E | _]; [contradiction | reflexivity].
Qed.

Lemma py_int_nonneg (x : R) : 0 <= x -> py_int x = Zfloor x.
Proof.
  intros Hx. unfold py_int.
  destruct (Rle_dec 0 x) as [_ | N]; [reflexivity | contradiction].
Qed.

Lemma py_int_ge0 (x : R) : 0 <= x -> (0 <= py_int x)%Z.
Proof.
  intros Hx. rewrite py_int_nonneg by assumption.
  apply Zfloor_lub. simpl. exact Hx.
Qed.

Lemma math_asin_Ok (x : R) : -1 <= x <= 1 -> math_asin x = Ok (asin x).
Proof.
  intros [H1 H2]. unfold math_asin.
  destruct (Rle_dec (-1) x) as [_ | N]; [| contradiction].
  destruct (Rle_dec x 1) as [_ | N]; [reflexivity | contradiction].
Qed.

(** ** The segment count and the angular step *)

Lemma half_degree_pos : 0 < half_degree.
Proof. unfold half_degree. pose proof PI_RGT_0. lra. Qed.

Lemma half_degree_eq : half_degree = PI / 360.
Proof. unfold half_degree. lra. Qed.

Lemma sweep_ratio_nonneg (theta0 theta1 : R) :
  0 <= Rabs (theta1 - theta0) / half_degree.
Proof.
  apply Rmult_le_pos; [apply Rabs_pos |].
  left. apply Rinv_0_lt_compat, half_degree_pos.
Qed.

Lemma num_segments_ge1 (theta0 theta1 : R) : (1 <= num_segments theta0 theta1)%Z.
Proof.
  unfold num_segments.
  pose proof (py_int_ge0 _ (sweep_ratio_nonneg theta0 theta1)). lia.
Qed.

Lemma num_segments_IZR_pos (theta0 theta1 : R) : 0 < IZR (num_segments theta0 theta1).
Proof. apply IZR_lt. pose proof (num_segments_ge1 theta0 theta1). lia. Qed.


Lemma arc_steps_Ok (theta0 theta1 : R) :
  arc_steps theta0 theta1
  = Ok (num_segments theta0 theta1, step theta0 theta1).
Proof.
  unfold arc_steps. fold half_degree.
  rewrite fdiv_Ok by (pose proof half_degree_pos; lra).
  rewrite bind_Ok. fold (num_segments theta0 theta1).
  rewrite fdiv_Ok by (pose proof (num_segments_IZR_pos theta0 theta1); lra).
  reflexivity.
Qed.


(** ** The loop of [drawArc] *)

Section ArcLoop.

Variables (center : point) (rad theta0 d : R) (moveTo : bool).

Lemma arc_body_later (i : nat) :
  arc_body center rad theta0 d moveTo (S i)
  = [L (polar center rad (theta0 + INR (S i) * d + d))].
Proof. reflexivity. Qed.

Lemma arc_body_first :
  arc_body center rad theta0 d moveTo 0
  = arc_move center rad theta0 moveTo
    ++ [L (polar center rad (theta0 + INR 0 * d + d))].
Proof.
  unfold arc_body, arc_move. simpl.
  destruct moveTo; simpl; [| reflexivity].
  do 3 f_equal. lra.
Qed.

Lemma loop_later (a n : nat) :
  flat_map (arc_body center rad theta0 d moveTo) (seq (S a) n)
  = map (fun i => L (polar center rad (theta0 + INR i * d + d))) (seq (S a) n).
Proof.
  revert a. induction n as [| n IH]; intros a; [reflexivity |].
  cbn [seq flat_map map]. rewrite arc_body_later, IH. reflexivity.
Qed.

Lemma loop_shape (n : nat) :
  flat_map (arc_body center rad theta0 d moveTo) (seq 0 (S n))
  = arc_move center rad theta0 moveTo ++ arc_lines center rad theta0 d (S n).
Proof.
  unfold arc_lines. cbn [seq flat_map map].
  rewrite arc_body_first, loop_later, <- app_assoc. reflexivity.
Qed.


Lemma arc_lines_snoc (n : nat) :
  arc_lines center rad theta0 d (S n)
  = arc_lines center rad theta0 d n
    ++ [L (polar center rad (theta0 + INR n * d + d))].
Proof. unfold arc_lines. rewrite seq_S, map_app. reflexivity. Qed.

Lemma arc_lines_are_lines (n : nat) :
  Forall is_line (arc_lines center rad theta0 d n).
Proof.
  unfold arc_lines. apply Forall_forall. intros c Hc.
  apply in_map_iff in Hc. destruct Hc as [i [<- _]]. eexists; reflexivity.
Qed.

End ArcLoop.

Lemma polar_on_circle (center : point) (rad theta : R) :
  on_circle center rad (polar center rad theta).
Proof.
  unfold on_circle, polar. simpl.
  pose proof (sin2_cos2 theta) as H. unfold Rsqr in H.
  replace (fst center + cos theta * rad - fst center) with (cos theta * rad) by ring.
  replace (snd center + sin theta * rad - snd center) with (sin theta * rad) by ring.
  transitivity ((sin theta * sin theta + cos theta * cos theta) * (rad * rad)); [ring |].
  rewrite H. ring.
Qed.

(** What [drawArc] returns, in closed form. *)
Lemma drawArc_Ok (center : point) (rad theta0 theta1 : R) (moveTo : bool) :
  drawArc center rad theta0 theta1 moveTo
  = Ok (arc_move center rad theta0 moveTo
        ++ arc_lines center rad theta0 (step theta0 theta1)
             (Z.to_nat (num_segments theta0 theta1))).
Proof.
  unfold drawArc. rewrite arc_steps_Ok, bind_Ok. cbn [fst snd]. unfold range0.
  pose proof (num_segments_ge1 theta0 theta1) as Hn.
  destruct (Z.to_nat (num_segments theta0 theta1)) as [| n] eqn:E; [lia |].
  rewrite loop_shape. reflexivity.
Qed.

(** The last sample of the loop is taken at [theta1]. *)
Lemma last_angle (theta0 theta1 : R) (n : nat) :
  Z.to_nat (num_segments theta0 theta1) = S n ->
  theta0 + INR n * step theta0 theta1 + step theta0 theta1 = theta1.
Proof.
  intros E. unfold step.
  pose proof (num_segments_ge1 theta0 theta1) as Hn.
  assert (HN : IZR (num_segments theta0 theta1) = INR n + 1).
  { rewrite <- (Z2Nat.id (num_segments theta0 theta1)) by lia.
    rewrite E, <- INR_IZR_INZ, S_INR. reflexivity. }
  rewrite HN.
  assert (0 <= INR n) by apply pos_INR.
  field. lra.
Qed.

Lemma drawArc_split (center : point) (rad theta0 theta1 : R) (moveTo : bool) :
  exists n,
    Z.to_nat (num_segments theta0 theta1) = S n
    /\ drawArc center rad theta0 theta1 moveTo
       = Ok (arc_move center rad theta0 moveTo
             ++ arc_lines center rad theta0 (step theta0 theta1) n
             ++ [L (polar center rad theta1)]).
Proof.
  pose proof (num_segments_ge1 theta0 theta1) as Hn.
  destruct (Z.to_nat (num_segments theta0 theta1)) as [| n] eqn:E; [lia |].
  exists n. split; [reflexivity |].
  rewrite drawArc_Ok, E, arc_lines_snoc, (last_angle _ _ _ E). reflexivity.
Qed.

Lemma within_refl (tol : R) (p : point) : 0 <= tol -> within tol p p.
Proof.
  intros Ht. unfold within.
  rewrite !Rminus_diag, Rabs_R0. split; exact Ht.
Qed.

Lemma polar_comm (center : point) (rad theta : R) :
  polar center rad theta
  = (fst center + rad * cos theta, snd center + rad * sin theta).
Proof. unfold polar. f_equal; ring. Qed.

Lemma step_nonzero (theta0 theta1 : R) :
  theta0 <> theta1 -> step theta0 theta1 <> 0.
Proof.
  intros Hne Hz. unfold step in Hz.
  pose proof (num_segments_IZR_pos theta0 theta1) as Hn.
  apply (f_equal (fun x => x * IZR (num_segments theta0 theta1))) in Hz.
  unfold Rdiv in Hz. rewrite Rmult_assoc, Rinv_l, Rmult_1_r, Rmult_0_l in Hz by lra.
  lra.
Qed.

(** No sample before the last one is taken at [theta1]. *)
Lemma inner_angle (theta0 theta1 : R) (n i : nat) :
  theta0 <> theta1 ->
  Z.to_nat (num_segments theta0 theta1) = S n -> (i < n)%nat ->
  theta0 + INR i * step theta0 theta1 + step theta0 theta1 <> theta1.
Proof.
  intros Hne E Hi Heq.
  pose proof (last_angle _ _ _ E) as Hl.
  pose proof (step_nonzero _ _ Hne) as Hs.
  assert (Hd : (INR n - INR i) * step theta0 theta1 = 0) by lra.
  apply Rmult_integral in Hd. destruct Hd as [Hd | Hd]; [| contradiction].
  apply lt_INR in Hi. lra.
Qed.



(** ** Full revolutions *)

Lemma zero_literal : 0.0 = 0.
Proof. lra. Qed.

Lemma polar_2PI (center : point) (rad : R) :
  polar center rad (2 * PI) = polar center rad 0.
Proof. unfold polar. rewrite cos_2PI, sin_2PI, cos_0, sin_0. reflexivity. Qed.

Lemma num_segments_revolution : num_segments 0 (2 * PI) = 721%Z.
Proof.
  unfold num_segments.
  assert (E : Rabs (2 * PI - 0) / half_degree = IZR 720).
  { pose proof PI_RGT_0 as Hpi.
    rewrite Rabs_pos_eq by lra. rewrite half_degree_eq. field. lra. }
  rewrite E, py_int_nonneg by (apply IZR_le; lia).
  rewrite ZfloorZ. reflexivity.
Qed.

Lemma arc_lines_polygon (center : point) (rad : R) (n : nat) :
  arc_lines center rad 0 (2 * PI / INR n) n
  = map (fun k => L (polar center rad (INR k * (2 * PI / INR n)))) (seq 1 n).
Proof.
  unfold arc_lines. rewrite <- seq_shift, map_map.
  apply map_ext. intros i. rewrite S_INR. do 2 f_equal. ring.
Qed.

(** A full revolution is drawn as a 721-gon. *)
Lemma drawArc_revolution (center : point) (rad : R) :
  drawArc center rad 0 (2 * PI) true = Ok (polygon center rad 721).
Proof.
  rewrite drawArc_Ok. unfold step. rewrite num_segments_revolution.
  change (Z.to_nat 721) with 721%nat.
  replace ((2 * PI - 0) / IZR 721) with (2 * PI / INR 721).
  - rewrite arc_lines_polygon. reflexivity.
  - rewrite INR_IZR_INZ. change (Z.of_nat 721) with 721%Z.
    unfold Rdiv. rewrite Rminus_0_r. reflexivity.
Qed.

Lemma drawArc_full_circle (center : point) (rad : R) :
  exists d, drawArc center rad 0 (2 * PI) true = Ok d /\ full_circle center rad d.
Proof.
  exists (polygon center rad 721). split; [apply drawArc_revolution |].
  exists 721%nat. split; [lia | reflexivity].
Qed.

Lemma polygon_closed (center : point) (rad : R) (n : nat) :
  polygon center rad (S n)
  = M (polar center rad 0)
    :: map (fun k => L (polar center rad (INR k * (2 * PI / INR (S n))))) (seq 1 n)
    ++ [L (polar center rad 0)].
Proof.
  unfold polygon. rewrite seq_S, map_app. cbn [map]. do 4 f_equal.
  change (1 + n)%nat with (S n).
  rewrite <- (polar_2PI center rad). f_equal.
  assert (0 < INR (S n)) by (apply lt_0_INR; lia).
  field. lra.
Qed.

Lemma polygon_on_circle (center : point) (rad : R) (n : nat) :
  Forall (fun c => on_circle center rad (cmd_point c)) (polygon center rad n).
Proof.
  unfold polygon. constructor; [apply polar_on_circle |].
  apply Forall_forall. intros c Hc.
  apply in_map_iff in Hc. destruct Hc as [k [<- _]]. apply polar_on_circle.
Qed.

(** ** Circle sets *)

Lemma polygon_full (center : point) (rad : R) :
  full_circle center rad (polygon center rad 721).
Proof. exists 721%nat. split; [lia | reflexivity]. Qed.

Lemma full_circle_closed (center : point) (rad : R) (d : path) :
  full_circle center rad d ->
  exists mid,
    d = M (polar center rad 0) :: mid ++ [L (polar center rad 0)]
    /\ Forall is_line mid
    /\ Forall (fun c => on_circle center rad (cmd_point c)) d.
Proof.
  intros [n [Hn ->]]. destruct n as [| n]; [lia |].
  eexists. split; [apply polygon_closed |].
  split; [| apply polygon_on_circle].
  apply Forall_forall. intros c Hc.
  apply in_map_iff in Hc. destruct Hc as [k [<- _]]. eexists; reflexivity.
Qed.

(** A path that starts with a full circle determines its center. *)
Lemma full_circle_center (c c' : point) (rad : R) (n : nat) (d rest rest' : path) :
  full_circle c rad d -> d ++ rest = polygon c' rad n ++ rest' -> c = c'.
Proof.
  intros [m [_ ->]] H. unfold polygon in H. cbn [app] in H.
  injection H as Hx Hy _.
  destruct c as [cx cy], c' as [cx' cy']. cbn [fst snd] in Hx, Hy.
  f_equal; lra.
Qed.

Ltac run_arcs :=
  repeat (rewrite ?zero_literal, drawArc_revolution, bind_Ok);
  cbn [app].

Lemma circles_four (c0 c1 c2 c3 : point) (r0 r1 r2 r3 : R) :
  circles [(c0, r0); (c1, r1); (c2, r2); (c3, r3)]
    (Ok (polygon c0 r0 721 ++ polygon c1 r1 721
         ++ polygon c2 r2 721 ++ polygon c3 r3 721)).
Proof.
  exists [polygon c0 r0 721; polygon c1 r1 721; polygon c2 r2 721; polygon c3 r3 721].
  split.
  - cbn [List.concat]. rewrite app_nil_r. reflexivity.
  - repeat (apply Forall2_cons; [apply polygon_full |]). apply Forall2_nil.
Qed.

Lemma circles_two (c0 c1 : point) (r0 r1 : R) :
  circles [(c0, r0); (c1, r1)] (Ok (polygon c0 r0 721 ++ polygon c1 r1 721)).
Proof.
  exists [polygon c0 r0 721; polygon c1 r1 721].
  split.
  - cbn [List.concat]. rewrite app_nil_r. reflexivity.
  - repeat (apply Forall2_cons; [apply polygon_full |]). apply Forall2_nil.
Qed.

Lemma aligners_Ok (cut_width cut_height film_width aligner_diam scale : R) :
  let r := aligner_diam / 2 * scale in
  let dx := film_width / 2 + aligner_diam / 2 in
  let dy := cut_width / 2 - aligner_diam / 2 in
  aligners cut_width cut_height film_width aligner_diam scale
  = Ok (polygon (x_center - dx, y_center - dy) r 721
        ++ polygon (x_center + dx, y_center - dy) r 721
        ++ polygon (x_center - dx, y_center + dy) r 721
        ++ polygon (x_center + dx, y_center + dy) r 721).
Proof.
  intros r dx dy. unfold aligners. run_arcs.
  rewrite <- !app_assoc. subst r dx dy.
  repeat (f_equal; try (unfold Rminus; ring)).
Qed.

(** ** Aligner pins *)

Lemma Rabs_neg_eq (x : R) : x <= 0 -> Rabs x = - x.
Proof.
  intros Hx. unfold Rabs. destruct (Rcase_abs x) as [_ | Hge]; [reflexivity | lra].
Qed.

(** C2, as stated, fails: for the 35mm format the pins are not offset
    vertically by half the cutout height plus one pin radius. *)
Lemma aligner_offsets_counterexample :
  ~ pins_offset_by
      (f_film_width fmt_35mm / 2 + f_aligner_diam fmt_35mm / 2)
      (f_cut_height fmt_35mm / 2 + f_aligner_diam fmt_35mm / 2)
      (f_aligner_diam fmt_35mm / 2 * 1.0)
      (aligners_of fmt_35mm 1.0).
Proof.
  intros [c0 [c1 [c2 [c3 [[ks [Hk HF]] Hoff]]]]].
  unfold aligners_of in Hk. rewrite aligners_Ok in Hk.
  cbv zeta in Hk. apply Ok_inj in Hk.
  inversion HF as [| cr k spec ks' Hc0 _ E1 E2]; subst.
  cbn [fst snd List.concat] in Hc0, Hk. symmetry in Hk.
  apply (full_circle_center _ _ _ _ _ _ _ Hc0) in Hk. subst c0.
  inversion Hoff as [| ? ? [_ Hy] _]; subst.
  cbn [snd f_cut_width f_cut_height f_film_width f_aligner_diam fmt_35mm] in Hy.
  unfold y_center, x_center, img_height in Hy.
  rewrite Rabs_neg_eq in Hy by lra. lra.
Qed.

Lemma pins_offset_by_intro (dx dy r : R) (res : py path) :
  circles [((x_center - dx, y_center - dy), r);
           ((x_center + dx, y_center - dy), r);
           ((x_center - dx, y_center + dy), r);
           ((x_center + dx, y_center + dy), r)] res ->
  pins_offset_by (Rabs dx) (Rabs dy) r res.
Proof.
  intros HC. do 4 eexists. split; [exact HC |].
  assert (Em : forall c d : R, c - d - c = - d) by (intros; ring).
  assert (Ep : forall c d : R, c + d - c = d) by (intros; ring).
  repeat (apply Forall_cons; [split; cbn [fst snd] |]); [.. | apply Forall_nil];
    rewrite ?Em, ?Ep, ?Rabs_Ropp; reflexivity.
Qed.

(** C2, amended: the four pin circles of makeAligners are centered at
    x_center -/+ (film_width/2 + aligner_diam/2) and
    y_center -/+ (cut_width/2 - aligner_diam/2): half the film width plus
    one pin radius beside the format center, half the cutout width minus
    one pin radius above or below it.  A full-size pin therefore touches
    the film strip's edge from outside and the cutout's edge, at half the
    cutout width, from inside.  For the three configured formats both
    offsets are positive. *)
Theorem aligner_offsets (cut_width cut_height film_width aligner_diam scale : R) :
  let r := aligner_diam / 2 * scale in
  let dx := film_width / 2 + aligner_diam / 2 in
  let dy := cut_width / 2 - aligner_diam / 2 in
  circles [((x_center - dx, y_center - dy), r);
           ((x_center + dx, y_center - dy), r);
           ((x_center - dx, y_center + dy), r);
           ((x_center + dx, y_center + dy), r)]
    (aligners cut_width cut_height film_width aligner_diam scale)
  /\ pins_offset_by (Rabs dx) (Rabs dy) r
       (aligners cut_width cut_height film_width aligner_diam scale)
  /\ dx - aligner_diam / 2 = film_width / 2
  /\ dy + aligner_diam / 2 = cut_width / 2
  /\ Forall (fun f =>
               pins_offset_by
                 (f_film_width f / 2 + f_aligner_diam f / 2)
                 (f_cut_width f / 2 - f_aligner_diam f / 2)
                 (f_aligner_diam f / 2 * scale)
                 (aligners_of f scale))
       [fmt_35mm; fmt_6x7; fmt_6x6].
Proof.
  intros r dx dy.
  assert (HC : forall cw ch fw ad,
             circles [((x_center - (fw / 2 + ad / 2), y_center - (cw / 2 - ad / 2)),
                       ad / 2 * scale);
                      ((x_center + (fw / 2 + ad / 2), y_center - (cw / 2 - ad / 2)),
                       ad / 2 * scale);
                      ((x_center - (fw / 2 + ad / 2), y_center + (cw / 2 - ad / 2)),
                       ad / 2 * scale);
                      ((x_center + (fw / 2 + ad / 2), y_center + (cw / 2 - ad / 2)),
                       ad / 2 * scale)]
               (aligners cw ch fw ad scale)).
  { intros cw ch fw ad. rewrite aligners_Ok. apply circles_four. }
  split; [apply HC |].
  split; [apply pins_offset_by_intro, HC |].
  split; [subst dx; lra |].
  split; [subst dy; lra |].
  repeat (apply Forall_cons; [| try apply Forall_nil]);
    unfold aligners_of;
    cbn [f_cut_width f_cut_height f_film_width f_aligner_diam
         fmt_35mm fmt_6x7 fmt_6x6];
    match goal with
    | |- pins_offset_by ?x ?y _ _ =>
        rewrite <- (Rabs_pos_eq x), <- (Rabs_pos_eq y) by lra
    end;
    apply pins_offset_by_intro, HC.
Qed.

(** C9: the four circle centers of makeAligners do not depend on scale;
    the scale only multiplies the pin diameter, the radius of each
    emitted circle being aligner_diam * scale / 2. *)
Theorem aligners_scale (cut_width cut_height film_width aligner_diam : R) :
  exists c0 c1 c2 c3,
    forall scale,
      let r := aligner_diam * scale / 2 in
      circles [(c0, r); (c1, r); (c2, r); (c3, r)]
        (aligners cut_width cut_height film_width aligner_diam scale)
      /\ exists a,
           aligners cut_width cut_height film_width aligner_diam scale = Ok a
           /\ makeAligners cut_width cut_height film_width aligner_diam scale
              = Ok ([Lit "<!-- Aligner pins "; Flt4 (aligner_diam * scale);
                     Lit (dq ++ " diam -->" ++ nl)%string]
                    ++ [Lit path_open] ++ d_text a
                    ++ [Lit (dq ++ " />" ++ nl ++ nl)%string]).
Proof.
  do 4 eexists. intros scale r.
  assert (Er : r = aligner_diam / 2 * scale) by (subst r; unfold Rdiv; ring).
  rewrite Er. unfold makeAligners. rewrite aligners_Ok. cbv zeta.
  split; [apply circles_four |].
  eexists. split; reflexivity.
Qed.

(** ** Ring *)

Lemma polygon_is_closed (center : point) (rad : R) (n : nat) :
  closed (polygon center rad (S n)).
Proof.
  exists (polar center rad 0). eexists. split; [apply polygon_closed |].
  apply Forall_forall. intros c Hc.
  apply in_map_iff in Hc. destruct Hc as [k [<- _]]. eexists; reflexivity.
Qed.

Lemma ring_Ok :
  ring = Ok (polygon (x_center, y_center) (ring_diam / 2) 721
             ++ polygon (x_center, y_center) ((ring_diam - 1.0) / 2) 721).
Proof.
  unfold ring. run_arcs.
  replace (ring_diam / 2 - 0.5) with ((ring_diam - 1.0) / 2) by lra.
  reflexivity.
Qed.

(** C8: makeRing draws exactly two closed circles around the format
    center (x_center, y_center): the outer one of diameter
    ring_diam = 4.725 and the inner one of diameter ring_diam - 1.0. *)
Theorem makeRing_circles :
  exists outer inner,
    ring = Ok (outer ++ inner)
    /\ makeRing
       = Ok ([Lit "<!-- Ring  OD="; Flt4 ring_diam; Lit (dq ++ ", ID=")%string;
              Flt4 (ring_diam - 1.0); Lit (dq ++ " -->" ++ nl)%string]
             ++ [Lit path_open] ++ d_text (outer ++ inner)
             ++ [Lit (dq ++ " />" ++ nl ++ nl)%string])
    /\ full_circle (x_center, y_center) (ring_diam / 2) outer
    /\ full_circle (x_center, y_center) ((ring_diam - 1.0) / 2) inner
    /\ closed outer /\ closed inner
    /\ Forall (fun c => on_circle (x_center, y_center) (ring_diam / 2) (cmd_point c))
         outer
    /\ Forall (fun c => on_circle (x_center, y_center) ((ring_diam - 1.0) / 2)
                          (cmd_point c)) inner
    /\ ring_diam = 4.725
    /\ (x_center, y_center) = (img_height / 2.0, img_height / 2.0).
Proof.
  exists (polygon (x_center, y_center) (ring_diam / 2) 721),
         (polygon (x_center, y_center) ((ring_diam - 1.0) / 2) 721).
  split; [apply ring_Ok |].
  split; [unfold makeRing; rewrite ring_Ok; reflexivity |].
  split; [apply polygon_full |].
  split; [apply polygon_full |].
  split; [apply polygon_is_closed |].
  split; [apply polygon_is_closed |].
  split; [apply polygon_on_circle |].
  split; [apply polygon_on_circle |].
  split; reflexivity.
Qed.

(** ** Inputs are not validated *)



Lemma aligners_returns (cut_width cut_height film_width aligner_diam scale : R) :
  exists t, makeAligners cut_width cut_height film_width aligner_diam scale = Ok t.
Proof.
  unfold makeAligners. rewrite aligners_Ok. cbv zeta. eexists; reflexivity.
Qed.




(** ** Counting path elements *)

Lemma path_elements_app (s t : text) :
  path_elements (s ++ t) = (path_elements s + path_elements t)%nat.
Proof. unfold path_elements. rewrite map_app, list_sum_app. reflexivity. Qed.

Lemma path_elements_d_text (d : path) : path_elements (d_text d) = 0%nat.
Proof.
  unfold d_text. induction d as [| c d IH]; [reflexivity |].
  cbn [flat_map]. rewrite path_elements_app, IH.
  destruct c; reflexivity.
Qed.

Lemma path_elements_makeHeader : path_elements makeHeader = 0%nat.
Proof. reflexivity. Qed.

Lemma path_elements_makeFooter : path_elements makeFooter = 0%nat.
Proof. reflexivity. Qed.

Lemma path_elements_makeFilmCutout (cut_width cut_height film_width aligner_diam : R) :
  path_elements (makeFilmCutout cut_width cut_height film_width aligner_diam) = 1%nat.
Proof. reflexivity. Qed.

(** A comment line, the opening of a path element, its pen commands and
    its closing text make one path element. *)
Lemma path_elements_shape (label : text) (d : path) (closing : string) :
  path_elements label = 0%nat -> count_sub "<path" closing = 0%nat ->
  path_elements (label ++ [Lit path_open] ++ d_text d ++ [Lit closing]) = 1%nat.
Proof.
  intros Hl Hc. rewrite !path_elements_app, Hl, path_elements_d_text.
  unfold path_elements at 2. cbn [map piece_paths list_sum]. rewrite Hc.
  reflexivity.
Qed.

(** ** Paddle outline *)

Lemma handle_sine_value : handle_sine = 1.3175 / 3.9375.
Proof.
  unfold handle_sine, handle_width, handle_fillet, large_rad, large_diam. lra.
Qed.

Lemma handle_sine_range : 0 < handle_sine < 1.
Proof. rewrite handle_sine_value. lra. Qed.

Lemma handle_theta0_Ok : handle_theta0 = Ok (asin handle_sine).
Proof.
  unfold handle_theta0. fold handle_sine.
  apply math_asin_Ok. pose proof handle_sine_range. lra.
Qed.

Lemma sin_handle_theta0 : sin (asin handle_sine) = handle_sine.
Proof. apply sin_asin. pose proof handle_sine_range. lra. Qed.

(** [outline] draws the five arcs of [paddle_arcs], the first one after
    a move and the others as continuations. *)
Lemma outline_draw :
  outline = draw_from true (paddle_arcs (asin handle_sine)).
Proof.
  unfold outline. rewrite handle_theta0_Ok, bind_Ok. cbv zeta.
  unfold paddle_arcs, draw_from, draw.
  unfold large_arc, fillet_A, corner_top, corner_bottom, fillet_B.
  unfold fillet_dist, handle_end.
  cbn [a_center a_rad a_theta0 a_theta1].
  repeat first [rewrite drawArc_Ok | rewrite bind_Ok].
  rewrite app_nil_r, <- !app_assoc. reflexivity.
Qed.

Lemma trig_quarter : cos (0.5 * PI) = 0 /\ sin (0.5 * PI) = 1.
Proof.
  replace (0.5 * PI) with (PI / 2) by lra. split; [apply cos_PI2 | apply sin_PI2].
Qed.

Lemma trig_minus_quarter : cos (-0.5 * PI) = 0 /\ sin (-0.5 * PI) = -1.
Proof.
  replace (-0.5 * PI) with (- (PI / 2)) by lra.
  rewrite cos_neg, sin_neg, cos_PI2, sin_PI2. split; reflexivity.
Qed.

Lemma trig_three_quarters : cos (1.5 * PI) = 0 /\ sin (1.5 * PI) = -1.
Proof.
  replace (1.5 * PI) with (3 * (PI / 2)) by lra.
  split; [apply cos_3PI2 | apply sin_3PI2].
Qed.

Lemma trig_zero : cos 0.0 = 1 /\ sin 0.0 = 0.
Proof. rewrite zero_literal. split; [apply cos_0 | apply sin_0]. Qed.

Lemma trig_turn_back (t : R) :
  cos (2.0 * PI - t) = cos t /\ sin (2.0 * PI - t) = - sin t.
Proof.
  replace (2.0 * PI - t) with (2 * PI - t) by lra.
  rewrite cos_minus, sin_minus, cos_2PI, sin_2PI. split; ring.
Qed.

Lemma trig_fillet_B_end (t : R) :
  cos (1.5 * PI - (PI / 2 - t)) = - cos t
  /\ sin (1.5 * PI - (PI / 2 - t)) = - sin t.
Proof.
  replace (1.5 * PI - (PI / 2 - t)) with (t + PI) by lra.
  split; [apply neg_cos | apply neg_sin].
Qed.

(** The fillet centers lie [handle_width/2 + handle_fillet] above and
    below the handle's axis. *)
Lemma fillet_rise (t : R) :
  sin t = handle_sine -> fillet_dist * sin t = handle_width / 2 + handle_fillet.
Proof.
  intros ->. rewrite handle_sine_value.
  unfold fillet_dist, handle_fillet, large_rad, large_diam, handle_width. lra.
Qed.

Section PaddleJoins.

Variable t : R.
Hypothesis sin_t : sin t = handle_sine.

Lemma large_arc_begin :
  arc_begin (large_arc t) = (x_center + cos t * large_rad, y_center + sin t * large_rad).
Proof. reflexivity. Qed.

Lemma large_arc_end :
  arc_end (large_arc t) = (x_center + cos t * large_rad, y_center - sin t * large_rad).
Proof.
  unfold arc_end, large_arc, polar. cbn [a_center a_rad a_theta1 fst snd].
  destruct (trig_turn_back t) as [-> ->]. fold large_rad. f_equal; ring.
Qed.

Lemma fillet_A_end :
  arc_end (fillet_A t)
  = (fillet_dist * cos t + x_center, y_center - handle_width / 2).
Proof.
  unfold arc_end, fillet_A, polar. cbn [a_center a_rad a_theta1 fst snd].
  destruct trig_quarter as [-> ->]. rewrite (fillet_rise t sin_t).
  f_equal; unfold handle_fillet; lra.
Qed.

Lemma corner_top_begin :
  arc_begin corner_top = (handle_end - handle_rad, y_center - handle_width / 2).
Proof.
  unfold arc_begin, corner_top, polar. cbn [a_center a_rad a_theta0 fst snd].
  destruct trig_minus_quarter as [-> ->]. f_equal; lra.
Qed.

Lemma corner_top_end :
  arc_end corner_top
  = (handle_end, y_center - handle_width / 2 + handle_rad).
Proof.
  unfold arc_end, corner_top, polar. cbn [a_center a_rad a_theta1 fst snd].
  destruct trig_zero as [-> ->]. f_equal; lra.
Qed.

Lemma corner_bottom_begin :
  arc_begin corner_bottom
  = (handle_end, y_center + handle_width / 2 - handle_rad).
Proof.
  unfold arc_begin, corner_bottom, polar. cbn [a_center a_rad a_theta0 fst snd].
  destruct trig_zero as [-> ->]. f_equal; lra.
Qed.

Lemma corner_bottom_end :
  arc_end corner_bottom = (handle_end - handle_rad, y_center + handle_width / 2).
Proof.
  unfold arc_end, corner_bottom, polar. cbn [a_center a_rad a_theta1 fst snd].
  destruct trig_quarter as [-> ->]. f_equal; lra.
Qed.

Lemma fillet_B_begin :
  arc_begin (fillet_B t)
  = (fillet_dist * cos t + x_center, y_center + handle_width / 2).
Proof.
  unfold arc_begin, fillet_B, polar. cbn [a_center a_rad a_theta0 fst snd].
  destruct trig_three_quarters as [-> ->]. rewrite (fillet_rise t sin_t).
  f_equal; unfold handle_fillet; lra.
Qed.

Lemma fillet_B_end : arc_end (fillet_B t) = arc_begin (large_arc t).
Proof.
  rewrite large_arc_begin.
  unfold arc_end, fillet_B, polar. cbn [a_center a_rad a_theta1 fst snd].
  destruct (trig_fillet_B_end t) as [-> ->].
  unfold fillet_dist. f_equal; ring.
Qed.

(** The large arc ends on the circle of the first fillet. *)
Lemma large_arc_meets_fillet_A :
  on_circle (a_center (fillet_A t)) (a_rad (fillet_A t)) (arc_end (large_arc t)).
Proof.
  rewrite large_arc_end. unfold on_circle, fillet_A, fillet_dist.
  cbn [a_center a_rad fst snd].
  pose proof (sin2_cos2 t) as H. unfold Rsqr in H.
  transitivity ((sin t * sin t + cos t * cos t) * (handle_fillet * handle_fillet));
    [ring | rewrite H; ring].
Qed.

End PaddleJoins.

Lemma arc_lines_last (center : point) (rad theta0 theta1 : R) :
  exists n,
    arc_lines center rad theta0 (step theta0 theta1)
      (Z.to_nat (num_segments theta0 theta1))
    = arc_lines center rad theta0 (step theta0 theta1) n
      ++ [L (polar center rad theta1)].
Proof.
  pose proof (num_segments_ge1 theta0 theta1) as Hn.
  destruct (Z.to_nat (num_segments theta0 theta1)) as [| n] eqn:E; [lia |].
  exists n. rewrite arc_lines_snoc, (last_angle _ _ _ E). reflexivity.
Qed.

(** The pen commands of the outline: one move, then lines only, the last
    of them to the end of the mirror fillet. *)
Lemma outline_Ok :
  exists mid,
    outline
    = Ok (M (arc_begin (large_arc (asin handle_sine)))
          :: mid ++ [L (arc_end (fillet_B (asin handle_sine)))])
    /\ Forall is_line mid.
Proof.
  rewrite outline_draw. unfold paddle_arcs, draw_from, draw.
  repeat first [rewrite drawArc_Ok | rewrite bind_Ok].
  destruct (arc_lines_last (a_center (fillet_B (asin handle_sine)))
              (a_rad (fillet_B (asin handle_sine)))
              (a_theta0 (fillet_B (asin handle_sine)))
              (a_theta1 (fillet_B (asin handle_sine)))) as [n ->].
  unfold arc_move. rewrite app_nil_r. cbn [app].
  eexists. split.
  - unfold arc_begin, arc_end. do 2 f_equal.
    rewrite !app_assoc. reflexivity.
  - repeat (apply Forall_app; split); apply arc_lines_are_lines.
Qed.

(** C1, as stated, fails: the first corner round of the handle tip begins
    more than an inch away from where the first fillet ended. *)
Lemma outline_chain_counterexample :
  exists t, handle_theta0 = Ok t /\ ~ chained 1e-9 (paddle_arcs t).
Proof.
  exists (asin handle_sine). split; [apply handle_theta0_Ok |].
  intros H.
  destruct (H 1%nat (fillet_A (asin handle_sine)) corner_top eq_refl eq_refl)
    as [Hx _].
  rewrite corner_top_begin, (fillet_A_end _ sin_handle_theta0) in Hx.
  cbn [fst] in Hx.
  pose proof (Rle_abs (handle_end - handle_rad
                       - (fillet_dist * cos (asin handle_sine) + x_center))) as Ha.
  pose proof (COS_bound (asin handle_sine)) as [_ Hc].
  unfold handle_end, handle_rad, handle_length, fillet_dist, handle_fillet,
    large_rad, large_diam, x_center, img_height in *.
  lra.
Qed.

(** C1, amended: the paddle outline is one pen-down polyline.  It moves
    once, to the beginning of the large-circle arc, every later command
    is a line, and its last line ends at that same beginning, where the
    mirror fillet ends: appending z closes the outline without a gap.
    The large arc ends on the circle of the first fillet.  The fragments
    of the handle are joined by straight edges: the first fillet ends
    and the first corner round begins on y = y_center - handle_width/2,
    the first corner round ends and the second begins on x = handle_end,
    the second corner round ends and the mirror fillet begins on
    y = y_center + handle_width/2. *)
Theorem outline_joins :
  exists t d mid,
    handle_theta0 = Ok t
    /\ outline = draw_from true (paddle_arcs t)
    /\ outline = Ok d
    /\ makePaddleOutline
       = Ok ([Lit ("<!-- Paddle outline -->" ++ nl)%string]
             ++ [Lit path_open] ++ d_text d
             ++ [Lit (" z" ++ dq ++ " />" ++ nl ++ nl)%string])
    /\ d = M (arc_begin (large_arc t)) :: mid ++ [L (arc_end (fillet_B t))]
    /\ Forall is_line mid
    /\ arc_end (fillet_B t) = arc_begin (large_arc t)
    /\ closed d
    /\ on_circle (a_center (fillet_A t)) (a_rad (fillet_A t)) (arc_end (large_arc t))
    /\ snd (arc_end (fillet_A t)) = y_center - handle_width / 2
    /\ snd (arc_begin corner_top) = y_center - handle_width / 2
    /\ fst (arc_end corner_top) = handle_end
    /\ fst (arc_begin corner_bottom) = handle_end
    /\ snd (arc_end corner_bottom) = y_center + handle_width / 2
    /\ snd (arc_begin (fillet_B t)) = y_center + handle_width / 2.
Proof.
  destruct outline_Ok as [mid [Ho Hmid]].
  exists (asin handle_sine). eexists. exists mid.
  split; [apply handle_theta0_Ok |].
  split; [apply outline_draw |].
  split; [exact Ho |].
  split; [unfold makePaddleOutline; rewrite Ho; reflexivity |].
  split; [reflexivity |].
  split; [exact Hmid |].
  split; [apply fillet_B_end |].
  split.
  { exists (arc_begin (large_arc (asin handle_sine))), mid.
    split; [| exact Hmid]. rewrite fillet_B_end. reflexivity. }
  split; [apply large_arc_meets_fillet_A |].
  rewrite (fillet_A_end _ sin_handle_theta0), corner_top_begin, corner_top_end,
    corner_bottom_begin, corner_bottom_end, (fillet_B_begin _ sin_handle_theta0).
  cbn [fst snd]. repeat split; reflexivity.
Qed.

Lemma handle_angle_range : 0 < asin handle_sine < PI / 2.
Proof.
  pose proof handle_sine_range as Hs.
  destruct (asin_bound_lt handle_sine) as [Hlo Hhi]; [lra |].
  split; [| exact Hhi].
  destruct (Rle_or_lt (asin handle_sine) 0) as [Hneg | Hpos]; [| exact Hpos].
  exfalso. destruct Hneg as [Hneg | Hz].
  - pose proof PI_RGT_0.
    assert (sin (asin handle_sine) < 0) by (apply sin_lt_0_var; lra).
    rewrite sin_handle_theta0 in *. lra.
  - pose proof sin_handle_theta0 as Hsin. rewrite Hz, sin_0 in Hsin. lra.
Qed.

(** The start angle [1.5 + handle_theta1] of the first fillet is not the
    angle [PI/2 + handle_theta1] at which the large arc ends on the
    fillet's circle: the arc as parameterised begins off the end point
    of the large arc.  The emitted path has no move there, so its first
    line simply runs from that end point to the fillet's next sample. *)
Lemma fillet_A_begin_off :
  arc_begin (fillet_A (asin handle_sine)) <> arc_end (large_arc (asin handle_sine)).
Proof.
  intros H. rewrite large_arc_end in H.
  unfold arc_begin, fillet_A, polar in H. cbn [a_center a_rad a_theta0 fst snd] in H.
  injection H as Hx _.
  pose proof handle_angle_range as [Ht0 Ht1].
  pose proof PI2_3_2 as Hpi.
  assert (Hc : cos (1.5 + (PI / 2 - asin handle_sine)) = cos (PI - asin handle_sine)).
  { replace (PI - asin handle_sine) with (- asin handle_sine + PI) by ring.
    rewrite neg_cos, cos_neg.
    unfold fillet_dist, large_rad, handle_fillet in Hx. lra. }
  apply cos_inj in Hc; lra.
Qed.

(** ** Holes and extra pins *)

Lemma ring_holes_Ok :
  let off := ring_diam / 2 - 0.25 in
  ring_holes
  = Ok (polygon (x_center, y_center - off) 0.125 721
        ++ polygon (x_center, y_center + off) 0.125 721
        ++ polygon (x_center - off, y_center) 0.125 721
        ++ polygon (x_center + off, y_center) 0.125 721).
Proof.
  cbv zeta. unfold ring_holes. run_arcs. rewrite <- !app_assoc. reflexivity.
Qed.

Lemma pin_holes_Ok (pin_diam : R) :
  let off := (large_rad - 0.625) / sqrt 2.0 in
  pin_holes pin_diam
  = Ok (polygon (x_center - off, y_center - off) (pin_diam / 2) 721
        ++ polygon (x_center - off, y_center + off) (pin_diam / 2) 721
        ++ polygon (x_center + off, y_center - off) (pin_diam / 2) 721
        ++ polygon (x_center + off, y_center + off) (pin_diam / 2) 721).
Proof.
  cbv zeta. unfold pin_holes. run_arcs. rewrite <- !app_assoc. reflexivity.
Qed.

Lemma separator_holes_Ok :
  let R := handle_width / 2 * 0.6 in
  separator_holes
  = Ok (polygon (x_center + large_rad + handle_length - handle_width / 2, y_center)
          R 721
        ++ polygon (x_center - large_rad + R * 1.2, y_center) (R * 0.8) 721).
Proof. cbv zeta. unfold separator_holes. run_arcs. reflexivity. Qed.

(** ** Files *)

Lemma read_write (name : string) (s : text) (w : world) :
  read_file name (write_file name s w) = Some s.
Proof.
  unfold read_file, write_file. cbn [files find fst snd].
  rewrite String.eqb_refl. reflexivity.
Qed.

Lemma read_write_other (name other : string) (s : text) (w : world) :
  String.eqb other name = false ->
  read_file other (write_file name s w) = read_file other w.
Proof.
  intros Hne. unfold read_file, write_file. cbn [files find fst snd].
  rewrite String.eqb_sym, Hne.
  induction (files w) as [| e fs IH]; [reflexivity |].
  cbn [filter find].
  destruct (String.eqb (fst e) name) eqn:E1; cbn [negb].
  - destruct (String.eqb (fst e) other) eqn:E2; [| exact IH].
    apply String.eqb_eq in E1, E2. rewrite <- E1, <- E2 in Hne.
    rewrite String.eqb_refl in Hne. discriminate Hne.
  - cbn [find]. destruct (String.eqb (fst e) other); [reflexivity | exact IH].
Qed.

(** ** Layers *)

Lemma makeRingAligners_returns : exists t, makeRingAligners = Ok t.
Proof.
  unfold makeRingAligners. rewrite ring_holes_Ok. cbv zeta. eexists; reflexivity.
Qed.

Lemma makeRing_returns : exists t, makeRing = Ok t.
Proof. unfold makeRing. rewrite ring_Ok. eexists; reflexivity. Qed.

(** C10: the document genRing writes is the same for any two sets of
    per-format arguments (and any file names and prior file systems): it
    is the header, the ring, the ring alignment holes and the footer,
    none of which reads a per-format parameter; so the two files render
    to the same bytes. *)
Theorem genRing_independent
    (name1 name2 : string)
    (cut_width1 cut_height1 film_width1 aligner_diam1 : R) (extra_pins1 : bool)
    (cut_width2 cut_height2 film_width2 aligner_diam2 : R) (extra_pins2 : bool)
    (w1 w2 : world) :
  exists r a w1' w2',
    makeRing = Ok r /\ makeRingAligners = Ok a
    /\ genRing name1 cut_width1 cut_height1 film_width1 aligner_diam1 extra_pins1 w1
       = Ok w1'
    /\ genRing name2 cut_width2 cut_height2 film_width2 aligner_diam2 extra_pins2 w2
       = Ok w2'
    /\ read_file name1 w1' = Some (makeHeader ++ r ++ a ++ makeFooter)
    /\ read_file name2 w2' = Some (makeHeader ++ r ++ a ++ makeFooter)
    /\ forall fmt_f fmt_4f,
         option_map (render fmt_f fmt_4f) (read_file name1 w1')
         = option_map (render fmt_f fmt_4f) (read_file name2 w2').
Proof.
  destruct makeRing_returns as [r Hr], makeRingAligners_returns as [a Ha].
  exists r, a. unfold genRing. rewrite Hr, Ha, !bind_Ok.
  do 2 eexists.
  split; [reflexivity |]. split; [reflexivity |].
  split; [reflexivity |]. split; [reflexivity |].
  rewrite !read_write, <- !app_assoc.
  split; [reflexivity |]. split; [reflexivity |].
  intros fmt_f fmt_4f. reflexivity.
Qed.

Lemma path_elements_outline (o : text) :
  makePaddleOutline = Ok o -> path_elements o = 1%nat.
Proof.
  destruct outline_Ok as [mid [Ho _]].
  unfold makePaddleOutline. rewrite Ho, bind_Ok. intros H.
  apply Ok_inj in H. subst o. apply path_elements_shape; reflexivity.
Qed.

Lemma path_elements_aligners
    (cut_width cut_height film_width aligner_diam scale : R) (a : text) :
  makeAligners cut_width cut_height film_width aligner_diam scale = Ok a ->
  path_elements a = 1%nat.
Proof.
  unfold makeAligners. rewrite aligners_Ok. cbv zeta. rewrite bind_Ok. intros H.
  apply Ok_inj in H. subst a. apply path_elements_shape; reflexivity.
Qed.

Lemma path_elements_extra_pins (pin_diam : R) (e : text) :
  makeExtraPins pin_diam = Ok e -> path_elements e = 1%nat.
Proof.
  unfold makeExtraPins. rewrite pin_holes_Ok. cbv zeta. rewrite bind_Ok. intros H.
  apply Ok_inj in H. subst e. apply path_elements_shape; reflexivity.
Qed.

(** C7: the top layer is written as the header, then the paddle outline,
    the film cutout, the aligner pins at scale 1.0 and, exactly when
    extra_pins is set, the extra pins of diameter 0.75, then the footer.
    Each of these shapes is one path element, so the top document has 4
    path elements with extra pins and 3 without. *)
Theorem genTop_layer (name : string)
    (cut_width cut_height film_width aligner_diam : R) (extra_pins : bool)
    (w : world) :
  exists o a e,
    makePaddleOutline = Ok o
    /\ makeAligners cut_width cut_height film_width aligner_diam 1.0 = Ok a
    /\ makeExtraPins 0.750 = Ok e
    /\ (let off := (large_rad - 0.625) / sqrt 2.0 in
        let r := 0.750 / 2 in
        circles [((x_center - off, y_center - off), r);
                 ((x_center - off, y_center + off), r);
                 ((x_center + off, y_center - off), r);
                 ((x_center + off, y_center + off), r)] (pin_holes 0.750))
    /\ let c := makeFilmCutout cut_width cut_height film_width aligner_diam in
       let doc := makeHeader ++ o ++ c ++ a
                  ++ (if extra_pins then e else []) ++ makeFooter in
       genTop name cut_width cut_height film_width aligner_diam extra_pins w
       = Ok (write_file name doc w)
       /\ read_file name (write_file name doc w) = Some doc
       /\ path_elements makeHeader = 0%nat
       /\ path_elements o = 1%nat
       /\ path_elements c = 1%nat
       /\ path_elements a = 1%nat
       /\ path_elements e = 1%nat
       /\ path_elements makeFooter = 0%nat
       /\ path_elements doc = (if extra_pins then 4 else 3)%nat.
Proof.
  destruct outline_Ok as [mid [Ho _]].
  assert (HO : exists o, makePaddleOutline = Ok o).
  { unfold makePaddleOutline. rewrite Ho. eexists; reflexivity. }
  destruct HO as [o HO].
  destruct (aligners_returns cut_width cut_height film_width aligner_diam 1.0)
    as [a HA].
  assert (HE : exists e, makeExtraPins 0.750 = Ok e).
  { unfold makeExtraPins. rewrite pin_holes_Ok. eexists; reflexivity. }
  destruct HE as [e HE].
  exists o, a, e.
  split; [exact HO |]. split; [exact HA |]. split; [exact HE |].
  split; [rewrite pin_holes_Ok; apply circles_four |].
  intros c doc.
  pose proof (path_elements_outline _ HO) as Po.
  pose proof (path_elements_aligners _ _ _ _ _ _ HA) as Pa.
  pose proof (path_elements_extra_pins _ _ HE) as Pe.
  pose proof (path_elements_makeFilmCutout cut_width cut_height film_width
                aligner_diam) as Pc.
  fold c in Pc.
  split.
  { unfold genTop. rewrite HO, bind_Ok, HA, bind_Ok. fold c.
    subst doc. destruct extra_pins.
    - rewrite HE, !bind_Ok, <- !app_assoc. reflexivity.
    - rewrite bind_Ok, app_nil_l, <- !app_assoc. reflexivity. }
  split; [apply read_write |].
  split; [reflexivity |].
  split; [exact Po |]. split; [exact Pc |]. split; [exact Pa |].
  split; [exact Pe |]. split; [reflexivity |].
  subst doc. rewrite !path_elements_app, Po, Pc, Pa.
  destruct extra_pins; [rewrite Pe |]; reflexivity.
Qed.

(** ** Shapes return *)

Lemma makePaddleOutline_returns : exists t, makePaddleOutline = Ok t.
Proof.
  destruct outline_Ok as [mid [Ho _]].
  unfold makePaddleOutline. rewrite Ho. eexists; reflexivity.
Qed.

Lemma makePaddleSeparatorHoles_returns : exists t, makePaddleSeparatorHoles = Ok t.
Proof.
  unfold makePaddleSeparatorHoles. rewrite separator_holes_Ok.
  eexists; reflexivity.
Qed.

Lemma makeExtraPins_returns (pin_diam : R) : exists t, makeExtraPins pin_diam = Ok t.
Proof.
  unfold makeExtraPins. rewrite pin_holes_Ok. eexists; reflexivity.
Qed.

(** * Further properties *)

(** ** The polyline of an arc *)

Lemma points_app (d e : path) : points (d ++ e) = points d ++ points e.
Proof. unfold points. apply map_app. Qed.

Lemma chord_polar (center : point) (rad theta d : R) :
  dist2 (polar center rad theta) (polar center rad (theta + d))
  = 2 * (rad * rad) * (1 - cos d).
Proof.
  unfold dist2, polar. cbn [fst snd].
  pose proof (sin2_cos2 theta) as H1. pose proof (sin2_cos2 (theta + d)) as H2.
  unfold Rsqr in H1, H2.
  assert (Hd : cos d = cos (theta + d) * cos theta + sin (theta + d) * sin theta).
  { rewrite <- cos_minus. f_equal. ring. }
  rewrite Hd.
  transitivity (rad * rad
                * ((sin theta * sin theta + cos theta * cos theta)
                   + (sin (theta + d) * sin (theta + d)
                      + cos (theta + d) * cos (theta + d))
                   - 2 * (cos (theta + d) * cos theta
                          + sin (theta + d) * sin theta)));
    [ring | rewrite H1, H2; ring].
Qed.

Lemma Rabs_step (theta0 theta1 : R) :
  Rabs (step theta0 theta1)
  = Rabs (theta1 - theta0) / IZR (num_segments theta0 theta1).
Proof.
  pose proof (num_segments_IZR_pos theta0 theta1) as Hn.
  unfold step, Rdiv. rewrite Rabs_mult, (Rabs_pos_eq (/ _)); [reflexivity |].
  left. apply Rinv_0_lt_compat, Hn.
Qed.

(** X4: the segment count is not wasteful: when the sweep is at least
    half a degree, the recomputed step is at least a quarter of a degree
    (PI/720) in magnitude, and the count is at most twice the sweep
    measured in half degrees. *)
Theorem step_at_least_quarter_degree (theta0 theta1 : R) :
  PI / 360 <= Rabs (theta1 - theta0) ->
  PI / 720 <= Rabs (step theta0 theta1)
  /\ IZR (num_segments theta0 theta1) <= 2 * (Rabs (theta1 - theta0) / (PI / 360)).
Proof.
  intros Hsweep.
  pose proof (num_segments_IZR_pos theta0 theta1) as Hn.
  pose proof half_degree_pos as Hh. rewrite half_degree_eq in Hh.
  assert (Hx : 1 <= Rabs (theta1 - theta0) / (PI / 360)).
  { apply Rmult_le_reg_r with (PI / 360); [exact Hh |].
    replace (Rabs (theta1 - theta0) / (PI / 360) * (PI / 360))
      with (Rabs (theta1 - theta0)) by (field; lra).
    lra. }
  assert (Hle : IZR (num_segments theta0 theta1)
                <= 1 + Rabs (theta1 - theta0) / (PI / 360)).
  { unfold num_segments. rewrite half_degree_eq.
    rewrite py_int_nonneg by lra. rewrite plus_IZR.
    pose proof (Zfloor_bound (Rabs (theta1 - theta0) / (PI / 360))). lra. }
  split; [| lra].
  rewrite Rabs_step.
  apply Rmult_le_reg_r with (IZR (num_segments theta0 theta1)); [exact Hn |].
  replace (Rabs (theta1 - theta0) / IZR (num_segments theta0 theta1)
           * IZR (num_segments theta0 theta1))
    with (Rabs (theta1 - theta0)) by (field; lra).
  assert (Hs : Rabs (theta1 - theta0)
               = Rabs (theta1 - theta0) / (PI / 360) * (PI / 360))
    by (field; lra).
  rewrite Hs.
  set (x := Rabs (theta1 - theta0) / (PI / 360)) in *.
  assert (IZR (num_segments theta0 theta1) <= 2 * x) by lra.
  nra.
Qed.

Lemma step_at_least_quarter_degree_witness :
  PI / 720 <= Rabs (step 0 PI)
  /\ IZR (num_segments 0 PI) <= 2 * (Rabs (PI - 0) / (PI / 360)).
Proof.
  apply (step_at_least_quarter_degree 0 PI).
  pose proof PI_RGT_0. rewrite Rabs_pos_eq by lra. lra.
Defined.

(** ** Where the shapes lie *)

Lemma arc_points_Forall (P : point -> Prop) (center : point) (rad theta0 d : R)
    (n : nat) (moveTo : bool) :
  (forall a, P (polar center rad a)) ->
  Forall P (points (arc_move center rad theta0 moveTo
                    ++ arc_lines center rad theta0 d n)).
Proof.
  intros HP. rewrite points_app. apply Forall_app. split.
  - destruct moveTo; cbn; constructor; [apply HP | constructor].
  - unfold points, arc_lines. rewrite map_map. apply Forall_forall.
    intros q Hq. apply in_map_iff in Hq. destruct Hq as [i [<- _]]. apply HP.
Qed.

Lemma polygon_points_Forall (P : point -> Prop) (center : point) (rad : R) (n : nat) :
  (forall a, P (polar center rad a)) -> Forall P (points (polygon center rad n)).
Proof.
  intros HP. unfold points, polygon. cbn [map cmd_point].
  constructor; [apply HP |].
  rewrite map_map. apply Forall_forall.
  intros q Hq. apply in_map_iff in Hq. destruct Hq as [i [<- _]]. apply HP.
Qed.

(** A point of a circle of radius [rho] whose center lies at distance
    [D] from [c0] lies between [D - rho] and [D + rho] from [c0]. *)
Lemma polar_between (c0 c : point) (rho D a : R) :
  0 <= D -> 0 <= rho -> dist2 c c0 = D * D ->
  (D - rho) * (D - rho) <= dist2 (polar c rho a) c0 <= (D + rho) * (D + rho).
Proof.
  intros HD Hrho Hc. unfold dist2, polar in *. cbn [fst snd] in *.
  pose proof (sin2_cos2 a) as Ht. unfold Rsqr in Ht.
  set (ox := fst c - fst c0) in *. set (oy := snd c - snd c0) in *.
  set (co := cos a) in *. set (si := sin a) in *.
  replace (fst c + co * rho - fst c0) with (ox + co * rho) by (subst ox; ring).
  replace (snd c + si * rho - snd c0) with (oy + si * rho) by (subst oy; ring).
  assert (HX : (ox * co + oy * si) * (ox * co + oy * si)
               + (ox * si - oy * co) * (ox * si - oy * co) = D * D).
  { transitivity ((ox * ox + oy * oy) * (si * si + co * co)); [ring |].
    rewrite Hc, Ht. ring. }
  pose proof (Rle_0_sqr (ox * si - oy * co)) as Hsq. unfold Rsqr in Hsq.
  assert (Hup : ox * co + oy * si <= D) by nra.
  assert (Hlo : - D <= ox * co + oy * si) by nra.
  assert (E : (ox + co * rho) * (ox + co * rho) + (oy + si * rho) * (oy + si * rho)
              = D * D + rho * rho + 2 * rho * (ox * co + oy * si)).
  { transitivity ((ox * ox + oy * oy) + rho * rho * (si * si + co * co)
                  + 2 * rho * (ox * co + oy * si)); [ring |].
    rewrite Hc, Ht. ring. }
  rewrite E. split; nra.
Qed.

Lemma polar_box (c : point) (rho a : R) :
  0 <= rho ->
  fst c - rho <= fst (polar c rho a) <= fst c + rho
  /\ snd c - rho <= snd (polar c rho a) <= snd c + rho.
Proof.
  intros Hrho. unfold polar. cbn [fst snd].
  pose proof (COS_bound a). pose proof (SIN_bound a). repeat split; nra.
Qed.

(** X6: the two handle fillets are tangent to what they join.  With
    t = handle_theta0, an angle strictly between 0 and PI/2, each fillet
    center lies at distance large_rad + handle_fillet from the center of
    the large circle, so the fillet circle touches the large circle from
    outside, and at distance handle_fillet beyond the handle's edge
    y = y_center -/+ handle_width/2, so it touches that edge as well. *)
Theorem fillet_tangency :
  exists t,
    handle_theta0 = Ok t
    /\ 0 < t < PI / 2
    /\ sin t = (handle_width / 2 + handle_fillet) / (large_rad + handle_fillet)
    /\ dist2 (a_center (fillet_A t)) (x_center, y_center)
       = (large_rad + handle_fillet) * (large_rad + handle_fillet)
    /\ dist2 (a_center (fillet_B t)) (x_center, y_center)
       = (large_rad + handle_fillet) * (large_rad + handle_fillet)
    /\ snd (a_center (fillet_A t)) = y_center - handle_width / 2 - handle_fillet
    /\ snd (a_center (fillet_B t)) = y_center + handle_width / 2 + handle_fillet
    /\ a_rad (fillet_A t) = handle_fillet
    /\ a_rad (fillet_B t) = handle_fillet.
Proof.
  exists (asin handle_sine).
  pose proof (fillet_rise _ sin_handle_theta0) as Hr.
  pose proof (sin2_cos2 (asin handle_sine)) as Ht. unfold Rsqr in Ht.
  split; [apply handle_theta0_Ok |].
  split; [apply handle_angle_range |].
  split; [apply sin_handle_theta0 |].
  assert (Hd : forall s c : R,
             s * s + c * c = 1 ->
             (fillet_dist * c) * (fillet_dist * c) + (fillet_dist * s) * (fillet_dist * s)
             = (large_rad + handle_fillet) * (large_rad + handle_fillet)).
  { intros s c H. unfold fillet_dist.
    transitivity ((handle_fillet + large_rad) * (handle_fillet + large_rad)
                  * (s * s + c * c)); [ring | rewrite H; ring]. }
  unfold dist2, fillet_A, fillet_B. cbn [a_center a_rad fst snd].
  split; [rewrite <- (Hd _ _ Ht); ring |].
  split; [rewrite <- (Hd _ _ Ht); ring |].
  rewrite Hr. repeat split; ring.
Qed.

Lemma cos_handle_theta0 : 0 <= cos (asin handle_sine) <= 1.
Proof.
  pose proof handle_angle_range as [H0 H1].
  split; [apply cos_ge_0; lra | apply COS_bound].
Qed.

(** X7: the paddle outline fits the drawing: every point of the outline
    path lies inside the 8.6 x 6.5 bounding box that the document header
    declares. *)
Theorem outline_in_canvas :
  exists d, outline = Ok d /\ Forall in_canvas (points d).
Proof.
  rewrite outline_draw. unfold paddle_arcs, draw_from, draw.
  repeat first [rewrite drawArc_Ok | rewrite bind_Ok].
  eexists. split; [reflexivity |].
  pose proof cos_handle_theta0 as Hc.
  pose proof (fillet_rise _ sin_handle_theta0) as Hr.
  rewrite app_nil_r.
  repeat (rewrite (points_app (_ ++ _)); apply Forall_app; split);
    apply arc_points_Forall; intros a;
    match goal with
    | |- in_canvas (polar ?c ?r a) =>
        assert (Hrad : 0 <= r)
          by (cbn [a_rad large_arc fillet_A fillet_B corner_top corner_bottom];
              unfold large_diam, handle_fillet, handle_rad; lra);
        pose proof (polar_box c r a Hrad) as [[Hx0 Hx1] [Hy0 Hy1]]
    end;
    unfold in_canvas;
    cbn [a_center a_rad large_arc fillet_A fillet_B corner_top corner_bottom
         fst snd] in *;
    unfold handle_end, handle_length, handle_rad, handle_width, fillet_dist,
      handle_fillet, large_rad, large_diam, y_center, x_center, img_width,
      img_height in *;
    lra.
Qed.

Lemma two_literal : 2.0 = 2.
Proof. lra. Qed.

Lemma Forall_points_app (P : point -> Prop) (d e : path) :
  Forall P (points d) -> Forall P (points e) -> Forall P (points (d ++ e)).
Proof. intros Hd He. rewrite points_app. apply Forall_app. split; assumption. Qed.

(** X8: the four ring alignment holes, of radius 0.125 and centered
    ring_diam/2 - 0.25 above, below, left and right of the format
    center, lie entirely in the material of the ring: each of their
    points is farther from the center than the ring's inner radius
    ring_diam/2 - 0.5 and nearer than its outer radius ring_diam/2. *)
Theorem ring_holes_in_ring :
  let off := ring_diam / 2 - 0.25 in
  exists d,
    ring_holes = Ok d
    /\ circles [((x_center, y_center - off), 0.125);
                ((x_center, y_center + off), 0.125);
                ((x_center - off, y_center), 0.125);
                ((x_center + off, y_center), 0.125)] ring_holes
    /\ Forall (fun q =>
                 (ring_diam / 2 - 0.5) * (ring_diam / 2 - 0.5)
                 < dist2 q (x_center, y_center)
                 < (ring_diam / 2) * (ring_diam / 2)) (points d).
Proof.
  intros off. pose proof ring_holes_Ok as H. cbv zeta in H. fold off in H.
  eexists. split; [exact H |]. split; [rewrite H; apply circles_four |].
  assert (Hoff : 0 <= off) by (subst off; unfold ring_diam; lra).
  repeat apply Forall_points_app;
    apply polygon_points_Forall; intros a;
    match goal with
    | |- _ < dist2 (polar ?c _ a) _ < _ =>
        assert (Hc : dist2 c (x_center, y_center) = off * off)
          by (unfold dist2; cbn [fst snd]; ring);
        pose proof (polar_between (x_center, y_center) c 0.125 off a Hoff
                      ltac:(lra) Hc) as [Hlo Hhi]
    end;
    subst off; unfold ring_diam in *; split; nra.
Qed.

Lemma extra_pin_offset :
  let off := (large_rad - 0.625) / sqrt 2.0 in
  off * off + off * off = (large_rad - 0.625) * (large_rad - 0.625).
Proof.
  cbv zeta. rewrite two_literal.
  pose proof sqrt2_neq_0 as Hs.
  pose proof (sqrt_sqrt 2 ltac:(lra)) as Hq.
  transitivity ((large_rad - 0.625) * (large_rad - 0.625)
                * (2 / (sqrt 2 * sqrt 2))); [field; exact Hs |].
  rewrite Hq. field.
Qed.

(** X9: the four extra pins sit on the diagonals at distance
    large_rad - 0.625 from the format center, and, for any pin diameter
    from 0 to 1.25 (the program uses 0.75 and 0.375), every point of
    every pin lies within the large circle of the paddle. *)
Theorem extra_pins_in_paddle (pin_diam : R) :
  0 <= pin_diam <= 1.25 ->
  let off := (large_rad - 0.625) / sqrt 2.0 in
  exists d,
    pin_holes pin_diam = Ok d
    /\ circles [((x_center - off, y_center - off), pin_diam / 2);
                ((x_center - off, y_center + off), pin_diam / 2);
                ((x_center + off, y_center - off), pin_diam / 2);
                ((x_center + off, y_center + off), pin_diam / 2)]
         (pin_holes pin_diam)
    /\ Forall (fun c => dist2 c (x_center, y_center)
                        = (large_rad - 0.625) * (large_rad - 0.625))
         [(x_center - off, y_center - off); (x_center - off, y_center + off);
          (x_center + off, y_center - off); (x_center + off, y_center + off)]
    /\ Forall (fun q => dist2 q (x_center, y_center) <= large_rad * large_rad)
         (points d).
Proof.
  intros Hd off. pose proof (pin_holes_Ok pin_diam) as H. cbv zeta in H. fold off in H.
  pose proof extra_pin_offset as Ho. cbv zeta in Ho. fold off in Ho.
  assert (HD : 0 <= large_rad - 0.625) by (unfold large_rad, large_diam; lra).
  assert (Hc : Forall (fun c => dist2 c (x_center, y_center)
                                = (large_rad - 0.625) * (large_rad - 0.625))
                 [(x_center - off, y_center - off); (x_center - off, y_center + off);
                  (x_center + off, y_center - off); (x_center + off, y_center + off)]).
  { repeat (apply Forall_cons; [| try apply Forall_nil]);
      unfold dist2; cbn [fst snd]; rewrite <- Ho; ring. }
  eexists. split; [exact H |]. split; [rewrite H; apply circles_four |].
  split; [exact Hc |].
  repeat apply Forall_points_app;
    apply polygon_points_Forall; intros a;
    match goal with
    | |- dist2 (polar ?c _ a) _ <= _ =>
        assert (Hc0 : dist2 c (x_center, y_center)
                      = (large_rad - 0.625) * (large_rad - 0.625))
          by (unfold dist2; cbn [fst snd]; rewrite <- Ho; ring);
        pose proof (polar_between (x_center, y_center) c (pin_diam / 2)
                      (large_rad - 0.625) a HD ltac:(lra) Hc0) as [_ Hhi]
    end;
    nra.
Qed.

Lemma extra_pins_in_paddle_witness :
  let off := (large_rad - 0.625) / sqrt 2.0 in
  exists d,
    pin_holes 0.750 = Ok d
    /\ circles [((x_center - off, y_center - off), 0.750 / 2);
                ((x_center - off, y_center + off), 0.750 / 2);
                ((x_center + off, y_center - off), 0.750 / 2);
                ((x_center + off, y_center + off), 0.750 / 2)]
         (pin_holes 0.750)
    /\ Forall (fun c => dist2 c (x_center, y_center)
                        = (large_rad - 0.625) * (large_rad - 0.625))
         [(x_center - off, y_center - off); (x_center - off, y_center + off);
          (x_center + off, y_center - off); (x_center + off, y_center + off)]
    /\ Forall (fun q => dist2 q (x_center, y_center) <= large_rad * large_rad)
         (points d).
Proof. apply (extra_pins_in_paddle 0.750). lra. Defined.

(** X10: the two separator holes are cut inside the paddle.  The first,
    of radius 0.6 * handle_width/2, lies wholly in the handle, beyond
    the large circle's rightmost point, short of the handle's end and
    between its two edges; the second, 0.8 times as large, lies wholly
    inside the large circle.  Both are centered on the handle's axis
    y = y_center. *)
Theorem separator_holes_in_paddle :
  exists h1 h2 c1 c2,
    separator_holes = Ok (h1 ++ h2)
    /\ full_circle c1 (handle_width / 2 * 0.6) h1
    /\ full_circle c2 (handle_width / 2 * 0.6 * 0.8) h2
    /\ snd c1 = y_center /\ snd c2 = y_center
    /\ Forall (fun q =>
                 x_center + large_rad < fst q < handle_end
                 /\ y_center - handle_width / 2 < snd q
                    < y_center + handle_width / 2) (points h1)
    /\ Forall (fun q => dist2 q (x_center, y_center) < large_rad * large_rad)
         (points h2).
Proof.
  pose proof separator_holes_Ok as H. cbv zeta in H.
  do 4 eexists. split; [exact H |].
  split; [apply polygon_full |]. split; [apply polygon_full |].
  split; [reflexivity |]. split; [reflexivity |].
  split; apply polygon_points_Forall; intros a.
  - match goal with
    | |- context [polar ?c ?r a] =>
        pose proof (polar_box c r a ltac:(unfold handle_width; lra))
          as [[Hx0 Hx1] [Hy0 Hy1]]
    end.
    cbn [fst snd] in *.
    unfold handle_end, handle_length, handle_width, large_rad, large_diam,
      y_center, x_center, img_height in *.
    lra.
  - match goal with
    | |- dist2 (polar ?c ?r a) _ < _ =>
        assert (HD : 0 <= large_rad - handle_width / 2 * 0.6 * 1.2)
          by (unfold large_rad, large_diam, handle_width; lra);
        assert (Hc : dist2 c (x_center, y_center)
                     = (large_rad - handle_width / 2 * 0.6 * 1.2)
                       * (large_rad - handle_width / 2 * 0.6 * 1.2))
          by (unfold dist2; cbn [fst snd]; ring);
        pose proof (polar_between (x_center, y_center) c r _ a HD
                      ltac:(unfold handle_width; lra) Hc) as [_ Hhi]
    end.
    unfold large_rad, large_diam, handle_width in *. nra.
Qed.

(** ** The other layers *)

Lemma path_elements_separator (h : text) :
  makePaddleSeparatorHoles = Ok h -> path_elements h = 1%nat.
Proof.
  unfold makePaddleSeparatorHoles. rewrite separator_holes_Ok. cbv zeta.
  rewrite bind_Ok. intros H.
  apply Ok_inj in H. subst h. apply path_elements_shape; reflexivity.
Qed.

Lemma path_elements_ring (r : text) : makeRing = Ok r -> path_elements r = 1%nat.
Proof.
  unfold makeRing. rewrite ring_Ok, bind_Ok. intros H.
  apply Ok_inj in H. subst r. apply path_elements_shape; reflexivity.
Qed.

Lemma path_elements_ring_aligners (r : text) :
  makeRingAligners = Ok r -> path_elements r = 1%nat.
Proof.
  unfold makeRingAligners. rewrite ring_holes_Ok. cbv zeta. rewrite bind_Ok.
  intros H. apply Ok_inj in H. subst r. apply path_elements_shape; reflexivity.
Qed.

(** X11: the bottom layer is written as the header, the paddle outline,
    the separator holes, the film cutout, the aligner pins at scale 0.5,
    the extra pins of diameter 0.375 exactly when extra_pins is set, the
    ring alignment holes and the footer: 6 path elements with extra pins
    and 5 without.  One progress line naming the file is printed. *)
Theorem genBottom_layer (name : string)
    (cut_width cut_height film_width aligner_diam : R) (extra_pins : bool)
    (w : world) :
  exists o h a e r,
    makePaddleOutline = Ok o
    /\ makePaddleSeparatorHoles = Ok h
    /\ makeAligners cut_width cut_height film_width aligner_diam 0.5 = Ok a
    /\ makeExtraPins 0.375 = Ok e
    /\ makeRingAligners = Ok r
    /\ let c := makeFilmCutout cut_width cut_height film_width aligner_diam in
       let doc := makeHeader ++ o ++ h ++ c ++ a
                  ++ (if extra_pins then e else []) ++ r ++ makeFooter in
       genBottom name cut_width cut_height film_width aligner_diam extra_pins w
       = Ok (write_file name doc (print ("    - writing " ++ name)%string w))
       /\ path_elements doc = (if extra_pins then 6 else 5)%nat.
Proof.
  destruct makePaddleOutline_returns as [o HO].
  destruct makePaddleSeparatorHoles_returns as [h HH].
  destruct (aligners_returns cut_width cut_height film_width aligner_diam 0.5)
    as [a HA].
  destruct (makeExtraPins_returns 0.375) as [e HE].
  destruct makeRingAligners_returns as [r HR].
  exists o, h, a, e, r.
  split; [exact HO |]. split; [exact HH |]. split; [exact HA |].
  split; [exact HE |]. split; [exact HR |].
  intros c doc.
  pose proof (path_elements_outline _ HO) as Po.
  pose proof (path_elements_separator _ HH) as Ph.
  pose proof (path_elements_aligners _ _ _ _ _ _ HA) as Pa.
  pose proof (path_elements_extra_pins _ _ HE) as Pe.
  pose proof (path_elements_ring_aligners _ HR) as Pr.
  pose proof (path_elements_makeFilmCutout cut_width cut_height film_width
                aligner_diam) as Pc.
  fold c in Pc.
  split.
  - unfold genBottom. rewrite HO, bind_Ok, HH, bind_Ok, HA, bind_Ok. fold c.
    subst doc. destruct extra_pins.
    + rewrite HE, !bind_Ok, HR, bind_Ok, <- !app_assoc. reflexivity.
    + rewrite bind_Ok, HR, bind_Ok, app_nil_l, <- !app_assoc. reflexivity.
  - subst doc. rewrite !path_elements_app, Po, Ph, Pc, Pa, Pr.
    destruct extra_pins; [rewrite Pe |]; reflexivity.
Qed.

(** X12: the combined debug layer is written as the header, the paddle
    outline, the separator holes, the film cutout, the aligner pins at
    scale 1.0 and again at scale 0.5, both sets of extra pins (0.75 then
    0.375) exactly when extra_pins is set, the ring, the ring alignment
    holes and the footer: 9 path elements with extra pins and 7
    without. *)
Theorem genAll_layer (name : string)
    (cut_width cut_height film_width aligner_diam : R) (extra_pins : bool)
    (w : world) :
  exists o h a1 a2 e1 e2 rg r,
    makePaddleOutline = Ok o
    /\ makePaddleSeparatorHoles = Ok h
    /\ makeAligners cut_width cut_height film_width aligner_diam 1.0 = Ok a1
    /\ makeAligners cut_width cut_height film_width aligner_diam 0.5 = Ok a2
    /\ makeExtraPins 0.750 = Ok e1
    /\ makeExtraPins 0.375 = Ok e2
    /\ makeRing = Ok rg
    /\ makeRingAligners = Ok r
    /\ let c := makeFilmCutout cut_width cut_height film_width aligner_diam in
       let doc := makeHeader ++ o ++ h ++ c ++ a1 ++ a2
                  ++ (if extra_pins then e1 ++ e2 else [])
                  ++ rg ++ r ++ makeFooter in
       genAll name cut_width cut_height film_width aligner_diam extra_pins w
       = Ok (write_file name doc (print ("    - writing " ++ name)%string w))
       /\ path_elements doc = (if extra_pins then 9 else 7)%nat.
Proof.
  destruct makePaddleOutline_returns as [o HO].
  destruct makePaddleSeparatorHoles_returns as [h HH].
  destruct (aligners_returns cut_width cut_height film_width aligner_diam 1.0)
    as [a1 HA1].
  destruct (aligners_returns cut_width cut_height film_width aligner_diam 0.5)
    as [a2 HA2].
  destruct (makeExtraPins_returns 0.750) as [e1 HE1].
  destruct (makeExtraPins_returns 0.375) as [e2 HE2].
  destruct makeRing_returns as [rg HG].
  destruct makeRingAligners_returns as [r HR].
  exists o, h, a1, a2, e1, e2, rg, r.
  split; [exact HO |]. split; [exact HH |]. split; [exact HA1 |].
  split; [exact HA2 |]. split; [exact HE1 |]. split; [exact HE2 |].
  split; [exact HG |]. split; [exact HR |].
  intros c doc.
  pose proof (path_elements_outline _ HO) as Po.
  pose proof (path_elements_separator _ HH) as Ph.
  pose proof (path_elements_aligners _ _ _ _ _ _ HA1) as Pa1.
  pose proof (path_elements_aligners _ _ _ _ _ _ HA2) as Pa2.
  pose proof (path_elements_extra_pins _ _ HE1) as Pe1.
  pose proof (path_elements_extra_pins _ _ HE2) as Pe2.
  pose proof (path_elements_ring _ HG) as Pg.
  pose proof (path_elements_ring_aligners _ HR) as Pr.
  pose proof (path_elements_makeFilmCutout cut_width cut_height film_width
                aligner_diam) as Pc.
  fold c in Pc.
  split.
  - unfold genAll.
    rewrite HO, bind_Ok, HH, bind_Ok, HA1, bind_Ok, HA2, bind_Ok. fold c.
    subst doc. destruct extra_pins.
    + rewrite HE1, bind_Ok, HE2, !bind_Ok, HG, bind_Ok, HR, bind_Ok,
        <- !app_assoc.
      reflexivity.
    + rewrite bind_Ok, HG, bind_Ok, HR, bind_Ok, app_nil_l, <- !app_assoc.
      reflexivity.
  - subst doc.
    destruct extra_pins;
      rewrite !path_elements_app, Po, Ph, Pc, Pa1, Pa2, Pg, Pr, ?Pe1, ?Pe2;
      reflexivity.
Qed.

(** X18: the first fillet is not started at its tangent point.  The
    large arc ends on the first fillet's circle at the angle PI - t
    (t = handle_theta0), but the fillet is drawn from the angle
    1.5 + (PI/2 - t), which is PI/2 - 1.5 > 0 short of it, so the fillet's
    own start point is not the large arc's end; the mirror fillet, drawn
    to 1.5 PI - (PI/2 - t), does end on the large arc's start. *)
Theorem fillet_A_start_angle :
  exists t,
    handle_theta0 = Ok t
    /\ arc_end (large_arc t)
       = polar (a_center (fillet_A t)) (a_rad (fillet_A t)) (PI - t)
    /\ a_theta0 (fillet_A t) = PI - t - (PI / 2 - 1.5)
    /\ 0 < PI / 2 - 1.5
    /\ arc_begin (fillet_A t) <> arc_end (large_arc t)
    /\ arc_end (fillet_B t) = arc_begin (large_arc t).
Proof.
  exists (asin handle_sine).
  split; [apply handle_theta0_Ok |].
  split.
  { rewrite large_arc_end. unfold fillet_A, polar, fillet_dist.
    cbn [a_center a_rad fst snd].
    replace (PI - asin handle_sine) with (- asin handle_sine + PI) by ring.
    rewrite neg_cos, neg_sin, cos_neg, sin_neg. f_equal; ring. }
  split; [unfold fillet_A; cbn [a_theta0]; lra |].
  split; [pose proof PI2_3_2; lra |].
  split; [apply fillet_A_begin_off | apply fillet_B_end].
Qed.

(** * Rounded angles *)

(** ** Bounds on PI *)

Lemma fact_zfact (n : nat) : INR (fact n) = IZR (zfact n).
Proof.
  induction n as [| n IH]; [reflexivity |].
  change (fact (S n)) with (S n * fact n)%nat.
  rewrite mult_INR, IH, INR_IZR_INZ, <- mult_IZR. reflexivity.
Qed.

(** Turns a partial sum of the cosine or sine series at a rational
    point into a rational expression. *)
Ltac eval_series :=
  unfold cos_approx, sin_lb, sin_approx; cbn [sum_f_R0];
  unfold cos_term, sin_term; cbn [Nat.mul Nat.add];
  rewrite !fact_zfact;
  repeat match goal with
         | |- context [zfact ?n] =>
             let v := eval vm_compute in (zfact n) in change (zfact n) with v
         end.

Lemma cos_half_pi_mid : 0 < cos half_pi_mid.
Proof.
  assert (B : -2 <= half_pi_mid <= 2) by (unfold half_pi_mid; lra).
  destruct (pre_cos_bound half_pi_mid 6 (proj1 B) (proj2 B)) as [lo _].
  apply Rlt_le_trans with (2 := lo). clear lo.
  change (2 * 6 + 1)%nat with 13%nat.
  eval_series. unfold half_pi_mid. lra.
Qed.

Lemma cos_half_pi_above : cos half_pi_above < 0.
Proof.
  assert (B : -2 <= half_pi_above <= 2) by (unfold half_pi_above; lra).
  destruct (pre_cos_bound half_pi_above 5 (proj1 B) (proj2 B)) as [_ hi].
  apply Rle_lt_trans with (1 := hi). clear hi.
  change (2 * (5 + 1))%nat with 12%nat.
  eval_series. unfold half_pi_above. lra.
Qed.

Lemma half_PI_bounds : half_pi_mid < PI / 2 < half_pi_above.
Proof.
  split.
  - apply PI2_lower_bound; [unfold half_pi_mid; lra | apply cos_half_pi_mid].
  - destruct (Rlt_le_dec (PI / 2) half_pi_above) as [H | H]; [exact H |].
    exfalso. pose proof cos_half_pi_above as Hc.
    assert (0 <= cos half_pi_above); [| lra].
    apply cos_ge_0; [| exact H].
    pose proof PI_RGT_0. unfold half_pi_above. lra.
Qed.

(** Cosine near 0. *)
Lemma cos_small (d : R) :
  0 <= d <= 1 -> 1 - d * d / 2 <= cos d <= 1 - d * d / 2 + d * d * d * d / 24.
Proof.
  intros [H0 H1].
  assert (Hl : -2 <= d) by lra. assert (Hu : d <= 2) by lra.
  destruct (pre_cos_bound d 0 Hl Hu) as [lo hi].
  change (2 * 0 + 1)%nat with 1%nat in lo.
  change (2 * (0 + 1))%nat with 2%nat in hi.
  revert lo hi. eval_series. intros lo hi. lra.
Qed.

(** ** Values of floats *)

Lemma float_value_finite (x : float) (m e : positive) :
  Prim2SF x = S754_finite false m (Zneg e) ->
  float_value x = IZR (Zpos m) / 2 ^ Pos.to_nat e.
Proof.
  intros H. unfold float_value. rewrite H. cbn [Z.leb Z.compare Z.opp Z.to_nat].
  unfold Rdiv. ring.
Qed.

Lemma float_value_zero : float_value 0%float = 0.
Proof. reflexivity. Qed.

Lemma float_value_three : float_value 3%float = 3.
Proof.
  rewrite (float_value_finite 3%float 6755399441055744 51)
    by (vm_compute; reflexivity).
  change (Pos.to_nat 51) with 51%nat. lra.
Qed.

Lemma float_value_below_three :
  float_value 0x1.7ffffffffffffp+1%float = 3 - / 2 ^ 51.
Proof.
  rewrite (float_value_finite _ 6755399441055743 51) by (vm_compute; reflexivity).
  change (Pos.to_nat 51) with 51%nat. lra.
Qed.

Lemma float_value_two_pi : float_value (2 * math_pi)%float = 4 * half_pi_below.
Proof.
  rewrite (float_value_finite (2 * math_pi)%float 7074237752028440 50)
    by (vm_compute; reflexivity).
  change (Pos.to_nat 50) with 50%nat. unfold half_pi_below. lra.
Qed.

(** [2*math.pi] lies below 2 PI, by between 2^-52 and 2^-51. *)
Lemma two_pi_gap :
  / 2 ^ 52 < 2 * PI - float_value (2 * math_pi)%float < / 2 ^ 51.
Proof.
  rewrite float_value_two_pi. pose proof half_PI_bounds as [Hl Hu].
  unfold half_pi_below, half_pi_mid, half_pi_above in *. lra.
Qed.

Lemma cos_two_pi_float :
  cos (float_value (2 * math_pi)%float)
  = cos (2 * PI - float_value (2 * math_pi)%float).
Proof.
  set (a := float_value (2 * math_pi)%float).
  rewrite cos_minus, cos_2PI, sin_2PI. ring.
Qed.

Lemma sin_two_pi_float :
  sin (float_value (2 * math_pi)%float)
  = - sin (2 * PI - float_value (2 * math_pi)%float).
Proof.
  set (a := float_value (2 * math_pi)%float).
  rewrite sin_minus, cos_2PI, sin_2PI. ring.
Qed.

Lemma seam_size :
  0 < 1 - cos (float_value (2 * math_pi)%float) <= / 2 ^ 103.
Proof.
  rewrite cos_two_pi_float. pose proof two_pi_gap as [Hl Hu].
  set (e := 2 * PI - float_value (2 * math_pi)%float) in *.
  assert (B : 0 <= e <= 1) by lra.
  destruct (cos_small e B) as [lo hi].
  assert (P : 0 < e * e) by (apply Rmult_lt_0_compat; lra).
  assert (Q : e * e <= / 2 ^ 51 * / 2 ^ 51) by (apply Rmult_le_compat; lra).
  assert (Q1 : e * e <= 1) by lra.
  split.
  - assert (e * e * e * e <= e * e).
    { replace (e * e * e * e) with ((e * e) * (e * e)) by ring.
      rewrite <- (Rmult_1_r (e * e)) at 3.
      apply Rmult_le_compat_l; lra. }
    lra.
  - lra.
Qed.

Lemma seam_sine : sin (float_value (2 * math_pi)%float) < - / 2 ^ 53.
Proof.
  rewrite sin_two_pi_float. pose proof two_pi_gap as [Hl Hu].
  set (e := 2 * PI - float_value (2 * math_pi)%float) in *.
  pose proof PI_RGT_0 as Hpi. pose proof PI2_1 as Hpi2.
  assert (sin (/ 2 ^ 52) < sin e) by (apply sin_increasing_1; lra).
  assert (/ 2 ^ 53 <= sin (/ 2 ^ 52)); [| lra].
  assert (B0 : 0 <= / 2 ^ 52) by lra. assert (B1 : / 2 ^ 52 <= PI) by lra.
  destruct (SIN _ B0 B1) as [lo _].
  apply Rle_trans with (2 := lo). clear.
  eval_series. lra.
Qed.

(** ** Sample angles on floats *)

(** The sweep from 0 to 3: 344 segments, and a last sample angle one
    unit in the last place below 3. *)
Lemma sweep_three_float :
  exists samples,
    arc_angles_float 0 3 = Ok samples
    /\ List.length samples = 344%nat
    /\ fst (hd (0%float, 0%float) samples) = 0%float
    /\ snd (last samples (0%float, 0%float)) = 0x1.7ffffffffffffp+1%float
    /\ existsb (fun s => PrimFloat.eqb (snd s) 3) samples = false.
Proof.
  eexists. split; [vm_compute; reflexivity |].
  repeat split; vm_compute; reflexivity.
Qed.

(** The full revolution from 0 to [2*math.pi]: 721 segments, the last
    sample angle being [2*math.pi] itself. *)
Lemma sweep_revolution_float :
  exists samples,
    arc_angles_float 0 (2 * math_pi) = Ok samples
    /\ List.length samples = 721%nat
    /\ fst (hd (0%float, 0%float) samples) = 0%float
    /\ snd (last samples (0%float, 0%float)) = (2 * math_pi)%float.
Proof.
  eexists. split; [vm_compute; reflexivity |].
  repeat split; vm_compute; reflexivity.
Qed.

Lemma within_dist2 (tol : R) (p q : point) :
  within tol p q -> dist2 p q <= 2 * (tol * tol).
Proof.
  intros [Hx Hy]. unfold dist2.
  assert (S : forall x, Rabs x <= tol -> x * x <= tol * tol).
  { intros x Hx'. pose proof (Rabs_pos x) as H0.
    replace (x * x) with (Rabs x * Rabs x)
      by (unfold Rabs; destruct (Rcase_abs x); ring).
    apply Rmult_le_compat; assumption. }
  pose proof (S _ Hx). pose proof (S _ Hy). lra.
Qed.

(** ** End points of an arc *)

(** C4, as stated, fails on floats: for the sweep from 0 to 3 no sample
    angle of drawArc equals 3; the last one is 3 - 2^-51.  With a radius
    of 1e8 the point at that angle is more than 1e-9 away from the point
    at the angle 3, even with exact cosine and sine. *)
Lemma endpoint_counterexample :
  exists samples a,
    arc_angles_float 0 3 = Ok samples
    /\ snd (last samples (0%float, 0%float)) = a
    /\ existsb (fun s => PrimFloat.eqb (snd s) 3) samples = false
    /\ float_value a = 3 - / 2 ^ 51
    /\ float_value 3 = 3
    /\ ~ within 1e-9 (polar (0, 0) 1e8 (float_value a))
                     (polar (0, 0) 1e8 (float_value 3)).
Proof.
  destruct sweep_three_float as [samples [E [_ [_ [Hl Hn]]]]].
  exists samples, 0x1.7ffffffffffffp+1%float.
  split; [exact E |]. split; [exact Hl |]. split; [exact Hn |].
  split; [apply float_value_below_three |].
  split; [apply float_value_three |].
  rewrite float_value_below_three, float_value_three.
  intros W. apply within_dist2 in W.
  replace 3 with (3 - / 2 ^ 51 + / 2 ^ 51) in W at 2 by lra.
  rewrite chord_polar in W.
  assert (B : 0 <= / 2 ^ 51 <= 1) by lra.
  destruct (cos_small _ B) as [_ Hc]. lra.
Qed.

(** C4, amended: in exact arithmetic, for a radius r > 0 and angles
    theta0 <> theta1, the polyline of drawArc starts (when moveTo is set)
    with a move to center + r (cos theta0, sin theta0) and ends with a
    line to center + r (cos theta1, sin theta1), both met exactly; the
    same line commands are produced without the move when moveTo is not
    set, and theta1 is the sample angle of the last segment only.  A
    point drawn at an angle a instead of theta1 lies at the squared
    distance 2 r^2 (1 - cos (theta1 - a)) from that end point, so an
    error of the last angle shows in proportion to the radius.  On
    binary64 floats the last angle is a rounding of theta1: the sweep
    from 0 to 3 takes 344 segments, starts at the angle 0 and ends at
    3 - 2^-51, no sample angle being 3. *)
Theorem drawArc_endpoints (center : point) (rad theta0 theta1 : R) :
  rad > 0 -> theta0 <> theta1 ->
  let p0 := (fst center + rad * cos theta0, snd center + rad * sin theta0) in
  let p1 := (fst center + rad * cos theta1, snd center + rad * sin theta1) in
  (exists n first last,
      Z.to_nat (num_segments theta0 theta1) = S n
      /\ drawArc center rad theta0 theta1 true
         = Ok (M first :: arc_lines center rad theta0 (step theta0 theta1) n
                 ++ [L last])
      /\ drawArc center rad theta0 theta1 false
         = Ok (arc_lines center rad theta0 (step theta0 theta1) n ++ [L last])
      /\ first = p0 /\ last = p1
      /\ (forall i, (i < n)%nat ->
            theta0 + INR i * step theta0 theta1 + step theta0 theta1 <> theta1))
  /\ (forall a,
        dist2 (polar center rad a) p1 = 2 * (rad * rad) * (1 - cos (theta1 - a)))
  /\ exists samples,
       arc_angles_float 0 3 = Ok samples
       /\ List.length samples = 344%nat
       /\ fst (hd (0%float, 0%float) samples) = 0%float
       /\ snd (last samples (0%float, 0%float)) = 0x1.7ffffffffffffp+1%float
       /\ float_value 0x1.7ffffffffffffp+1 = 3 - / 2 ^ 51
       /\ existsb (fun s => PrimFloat.eqb (snd s) 3) samples = false.
Proof.
  intros _ Hne p0 p1.
  split.
  { destruct (drawArc_split center rad theta0 theta1 true) as [n [E Ht]].
    destruct (drawArc_split center rad theta0 theta1 false) as [n' [E' Hf]].
    assert (n' = n) by congruence. subst n'.
    exists n, p0, p1. subst p0 p1. rewrite <- !polar_comm.
    repeat split; try assumption.
    intros i Hi. now apply inner_angle with n. }
  split.
  { intros a. subst p1. rewrite <- polar_comm.
    replace theta1 with (a + (theta1 - a)) at 1 by ring.
    apply chord_polar. }
  destruct sweep_three_float as [samples [E [Hn [Hf [Hl Hx]]]]].
  exists samples. repeat split; try assumption.
  apply float_value_below_three.
Qed.

Lemma drawArc_endpoints_witness :
  (exists n first last,
      Z.to_nat (num_segments 0 1) = S n
      /\ drawArc (0, 0) 1 0 1 true
         = Ok (M first :: arc_lines (0, 0) 1 0 (step 0 1) n ++ [L last])
      /\ drawArc (0, 0) 1 0 1 false
         = Ok (arc_lines (0, 0) 1 0 (step 0 1) n ++ [L last])
      /\ first = (fst (0, 0) + 1 * cos 0, snd (0, 0) + 1 * sin 0)
      /\ last = (fst (0, 0) + 1 * cos 1, snd (0, 0) + 1 * sin 1)
      /\ (forall i, (i < n)%nat -> 0 + INR i * step 0 1 + step 0 1 <> 1))
  /\ (forall a,
        dist2 (polar (0, 0) 1 a) (fst (0, 0) + 1 * cos 1, snd (0, 0) + 1 * sin 1)
        = 2 * (1 * 1) * (1 - cos (1 - a)))
  /\ exists samples,
       arc_angles_float 0 3 = Ok samples
       /\ List.length samples = 344%nat
       /\ fst (hd (0%float, 0%float) samples) = 0%float
       /\ snd (last samples (0%float, 0%float)) = 0x1.7ffffffffffffp+1%float
       /\ float_value 0x1.7ffffffffffffp+1 = 3 - / 2 ^ 51
       /\ existsb (fun s => PrimFloat.eqb (snd s) 3) samples = false.
Proof. apply (drawArc_endpoints (0, 0) 1 0 1); lra. Defined.

(** ** The seam of a full revolution *)

(** C6, as stated, fails on floats: the last sample angle of the full
    revolution is [2*math.pi], which is below 2 PI, so the last point is
    not the first.  With center (0, 0) and a radius of 1e12 the first
    point has ordinate 0 and the last, even with exact cosine and sine,
    an ordinate below -0.0001. *)
Lemma seam_counterexample :
  exists samples a,
    arc_angles_float 0 (2 * math_pi) = Ok samples
    /\ fst (hd (0%float, 0%float) samples) = 0%float
    /\ snd (last samples (0%float, 0%float)) = a
    /\ a = (2 * math_pi)%float
    /\ float_value a < 2 * PI
    /\ snd (polar (0, 0) 1e12 (float_value 0)) = 0
    /\ snd (polar (0, 0) 1e12 (float_value a)) < - 0.0001
    /\ polar (0, 0) 1e12 (float_value a) <> polar (0, 0) 1e12 (float_value 0).
Proof.
  destruct sweep_revolution_float as [samples [E [_ [Hf Hl]]]].
  exists samples, (2 * math_pi)%float.
  split; [exact E |]. split; [exact Hf |]. split; [exact Hl |].
  split; [reflexivity |].
  split; [pose proof two_pi_gap; lra |].
  assert (Y0 : snd (polar (0, 0) 1e12 (float_value 0)) = 0).
  { rewrite float_value_zero. unfold polar. cbn [fst snd]. rewrite sin_0. ring. }
  assert (Y1 : snd (polar (0, 0) 1e12 (float_value (2 * math_pi))) < - 0.0001).
  { unfold polar. cbn [fst snd]. pose proof seam_sine. lra. }
  split; [exact Y0 |]. split; [exact Y1 |].
  intros H. rewrite H in Y1. lra.
Qed.

(** C6, amended: in exact arithmetic a full revolution
    drawArc(center, r, 0, 2 PI, True), for every center and radius,
    returns a polyline that begins with a move to a point and ends with
    a line to that same point, the last sample being taken at the angle
    2 PI exactly, and all vertices lie on the circle.  On binary64
    floats the revolution from 0 to 2*math.pi takes 721 segments, starts
    at the angle 0 and ends at the angle 2*math.pi exactly; that float
    is below 2 PI by between 2^-52 and 2^-51.  The last point is
    therefore not the first: with exact cosine and sine its squared
    distance from the first is 2 r^2 (1 - cos (2*math.pi)), which is
    positive for r <> 0 and at most (2^-51 r)^2. *)
Theorem drawArc_closed (center : point) (rad : R) :
  (exists d p mid,
      drawArc center rad 0 (2 * PI) true = Ok d
      /\ d = M p :: mid ++ [L p]
      /\ Forall is_line mid
      /\ p = polar center rad 0
      /\ p = polar center rad (2 * PI)
      /\ Forall (fun c => on_circle center rad (cmd_point c)) d
      /\ full_circle center rad d)
  /\ (exists samples,
        arc_angles_float 0 (2 * math_pi) = Ok samples
        /\ List.length samples = 721%nat
        /\ fst (hd (0%float, 0%float) samples) = 0%float
        /\ snd (last samples (0%float, 0%float)) = (2 * math_pi)%float)
  /\ / 2 ^ 52 < 2 * PI - float_value (2 * math_pi) < / 2 ^ 51
  /\ dist2 (polar center rad (float_value (2 * math_pi)))
           (polar center rad (float_value 0))
     = 2 * (rad * rad) * (1 - cos (float_value (2 * math_pi)))
  /\ 0 < 1 - cos (float_value (2 * math_pi)) <= / 2 ^ 103.
Proof.
  split.
  { exists (polygon center rad 721), (polar center rad 0).
    eexists. split; [apply drawArc_revolution |].
    split; [apply polygon_closed |].
    split.
    { apply Forall_forall. intros c Hc.
      apply in_map_iff in Hc. destruct Hc as [k [<- _]]. eexists; reflexivity. }
    split; [reflexivity |].
    split; [symmetry; apply polar_2PI |].
    split; [apply polygon_on_circle |].
    exists 721%nat. split; [lia | reflexivity]. }
  split; [apply sweep_revolution_float |].
  split; [apply two_pi_gap |].
  split; [| apply seam_size].
  rewrite float_value_zero.
  set (a := float_value (2 * math_pi)).
  replace 0 with (a + - a) at 1 by ring.
  rewrite chord_polar, cos_neg. reflexivity.
Qed.
